(** * InjectLib: matching, compatibility gate, scanner, sequencer and menu

    A shallow embedding of [main.py] and [src/ui/menu_manager.py].

    Modelling conventions
    - Python [str] is [string] (a byte string); [str.lower], [str.strip] and
      [str.isdigit] are their ASCII versions.
    - A JSON dictionary (a catalog entry of [config.json]) is a
      [gmap string value]; [d.get(k)] is [get d k], with Python's [None] for
      an absent key.
    - The record built by [parse_app_info] is [InstalledApp].
    - Code that talks to the operating system (sub-processes, the file
      system, the console) is a tree of events, [prog], interpreted by a
      handler over a world state. *)

From stdpp Require Import gmap strings list fin_maps pretty.
From Stdlib Require Import ZArith Ascii.

Local Open Scope Z_scope.

(* ===================================================================== *)
(** ** Python strings *)
(* ===================================================================== *)

Module PyStr.

Definition lower_ascii (c : ascii) : ascii :=
  let n := nat_of_ascii c in
  if ((65 <=? n)%nat && (n <=? 90)%nat)%bool then ascii_of_nat (n + 32) else c.

(** [s.lower()] on ASCII strings: A-Z are lowered, every other byte is
    kept. [str.lower] also maps cased letters outside ASCII, so the two
    agree on the strings [is_ascii] accepts. *)
Fixpoint lower (s : string) : string :=
  match s with
  | EmptyString => EmptyString
  | String c r => String (lower_ascii c) (lower r)
  end.

(** [s.startswith(p)] *)
Fixpoint startswith (p s : string) : bool :=
  match p, s with
  | EmptyString, _ => true
  | String a p', String b s' => if decide (a = b) then startswith p' s' else false
  | String _ _, EmptyString => false
  end.

(** [needle in hay] *)
Fixpoint contains (needle hay : string) : bool :=
  if startswith needle hay then true
  else match hay with
       | EmptyString => false
       | String _ r => contains needle r
       end.

Definition is_space (c : ascii) : bool :=
  let n := nat_of_ascii c in
  ((n =? 32)%nat || ((9 <=? n)%nat && (n <=? 13)%nat)
   || ((28 <=? n)%nat && (n <=? 31)%nat))%bool.

Fixpoint lstrip (s : string) : string :=
  match s with
  | String c r => if is_space c then lstrip r else s
  | EmptyString => EmptyString
  end.

(** [rstrip] keeps a character when it is not a space or when something
    that is kept follows it. *)
Fixpoint rstrip (s : string) : string :=
  match s with
  | EmptyString => EmptyString
  | String c r =>
      match rstrip r with
      | EmptyString => if is_space c then EmptyString else String c EmptyString
      | r' => String c r'
      end
  end.

(** [s.strip()] on ASCII strings: the blanks removed are the ASCII ones of
    [is_space]. [str.strip] also removes blanks outside ASCII (U+00A0 and
    others), so the two agree on the strings [is_ascii] accepts. *)
Definition strip (s : string) : string := rstrip (lstrip s).

Definition is_digit (c : ascii) : bool :=
  let n := nat_of_ascii c in ((48 <=? n)%nat && (n <=? 57)%nat)%bool.

Fixpoint all_digits (s : string) : bool :=
  match s with
  | EmptyString => true
  | String c r => is_digit c && all_digits r
  end.

(** [s.isdigit()] on ASCII strings: at least one character and all of
    them among 0-9. [str.isdigit] is also true of digits outside ASCII. *)
Definition isdigit (s : string) : bool :=
  match s with
  | EmptyString => false
  | _ => all_digits s
  end.

Fixpoint int_acc (s : string) (acc : Z) : Z :=
  match s with
  | EmptyString => acc
  | String c r => int_acc r (10 * acc + (Z.of_nat (nat_of_ascii c) - 48))
  end.

(** [int(s)] for a string of the digits 0-9. Python raises [ValueError]
    beyond 4300 digits; the statements that depend on it bound the length
    of the line ([plain_line]). *)
Definition int (s : string) : Z := int_acc s 0.

(** The part after the last "/": [s.split("/")[-1]], [os.path.basename]. *)
Fixpoint last_segment_acc (s cur : string) : string :=
  match s with
  | EmptyString => cur
  | String c r =>
      if decide (c = "/"%char) then last_segment_acc r EmptyString
      else last_segment_acc r (cur +:+ String c EmptyString)
  end.

Definition last_segment (s : string) : string := last_segment_acc s EmptyString.

(** The characters of a string, as iterating over it yields them. *)
Fixpoint chars (s : string) : list string :=
  match s with
  | EmptyString => []
  | String c r => String c EmptyString :: chars r
  end.

(** [sep.join(l)] *)
Fixpoint join (sep : string) (l : list string) : string :=
  match l with
  | [] => EmptyString
  | [x] => x
  | x :: r => x +:+ sep +:+ join sep r
  end.

(** [os.path.join(a, b)] on POSIX. *)
Definition path_join (a b : string) : string :=
  if startswith "/" b then b
  else match a with
       | EmptyString => b
       | _ => if decide (last_segment a = EmptyString) then a +:+ b else a +:+ "/" +:+ b
       end.

(** [kw] is a case-insensitive substring of [s]. *)
Definition ci_substring (kw s : string) : Prop :=
  ∃ pre post, lower s = pre +:+ lower kw +:+ post.

End PyStr.

(** A string of ASCII characters only: on these [PyStr.lower], [PyStr.strip]
    and [PyStr.isdigit] are [str.lower], [str.strip] and [str.isdigit]. *)
Fixpoint is_ascii (s : string) : bool :=
  match s with
  | EmptyString => true
  | String c r => (nat_of_ascii c <? 128)%nat && is_ascii r
  end.

(** A typed line on which the model reads numbers as Python does: ASCII
    only, and short enough for [int] not to refuse it. *)
Definition plain_line (s : string) : Prop :=
  is_ascii s = true ∧ (String.length s ≤ 4300)%nat.

(* ===================================================================== *)
(** ** Values and dictionaries of the catalog *)
(* ===================================================================== *)

(** The JSON values the catalog uses: null, booleans, integers, strings and
    lists of strings. *)
Inductive value : Type :=
| VNone
| VBool (b : bool)
| VInt (n : Z)
| VStr (s : string)
| VList (l : list string).

#[global] Instance value_eq_dec : EqDecision value.
Proof. solve_decision. Defined.

#[global] Instance value_inhabited : Inhabited value := populate VNone.

(** A catalog entry. *)
Abbreviation entry := (gmap string value).

(** [d.get(k)] *)
Definition get (d : entry) (k : string) : value := default VNone (d !! k).

(** Python truthiness, as tested by [if v:]. *)
Definition truthy (v : value) : bool :=
  match v with
  | VNone => false
  | VBool b => b
  | VInt n => negb (n =? 0)%Z
  | VStr s => negb (bool_decide (s = EmptyString))
  | VList l => negb (bool_decide (l = []))
  end.

Definition is_none (v : value) : bool :=
  match v with VNone => true | _ => false end.

(** What [for x in v] ranges over; [None] is a [TypeError]. *)
Definition py_iter (v : value) : option (list string) :=
  match v with
  | VList l => Some l
  | VStr s => Some (PyStr.chars s)
  | _ => None
  end.

(** [str(v)], as an f-string formats [v] (the list case for strings without
    quotes or escapes). *)
Definition py_str (v : value) : string :=
  match v with
  | VNone => "None"
  | VBool true => "True"
  | VBool false => "False"
  | VInt n => pretty n
  | VStr s => s
  | VList l => "[" +:+ PyStr.join ", " ((λ s, "'" +:+ s +:+ "'") <$> l) +:+ "]"
  end.

(** The record [parse_app_info] builds. [CFBundleIdentifier] is read with
    [get] and no default, so it may be [None]. *)
Record InstalledApp : Type := mkInstalledApp {
  appBaseLocate : string;
  CFBundleIdentifier : option string;
  CFBundleVersion : string;
  CFBundleShortVersionString : string;
  CFBundleName : string;
  CFBundleExecutable : string;
}.

#[global] Instance InstalledApp_eq_dec : EqDecision InstalledApp.
Proof. solve_decision. Defined.

(** [installed_app.get("CFBundleIdentifier") == package_name]: Python's [==]
    between a string or [None] and a catalog value. *)
Definition id_eq (ident : option string) (package_name : value) : bool :=
  match ident, package_name with
  | None, VNone => true
  | Some s, VStr t => bool_decide (s = t)
  | _, _ => false
  end.

(* ===================================================================== *)
(** ** Matcher: [search_apps] *)
(* ===================================================================== *)

(** The inner [for installed_app in install_apps] loop; [true] when the
    loop appends the entry and breaks. *)
Fixpoint search_installed (install_apps : list InstalledApp)
    (package_name : value) (keyword : string) : bool :=
  match install_apps with
  | [] => false
  | installed_app :: rest =>
      if id_eq (CFBundleIdentifier installed_app) package_name then
        if PyStr.contains (PyStr.lower keyword) (PyStr.lower (CFBundleName installed_app))
        then true
        else search_installed rest package_name keyword
      else search_installed rest package_name keyword
  end.

(** The outer [for app in app_list] loop, [matched_apps] being the list
    built so far. *)
Fixpoint search_apps_loop (app_list : list entry) (install_apps : list InstalledApp)
    (keyword : string) (matched_apps : list entry) : list entry :=
  match app_list with
  | [] => matched_apps
  | app :: rest =>
      let package_name := get app "packageName" in
      let by_display_name :=
        if search_installed install_apps package_name keyword
        then search_apps_loop rest install_apps keyword (matched_apps ++ [app])
        else search_apps_loop rest install_apps keyword matched_apps in
      match package_name with
      | VList names =>
          if existsb (λ name, PyStr.contains (PyStr.lower keyword) (PyStr.lower name)) names
          then search_apps_loop rest install_apps keyword (matched_apps ++ [app])
          else by_display_name
      | VStr name =>
          if PyStr.contains (PyStr.lower keyword) (PyStr.lower name)
          then search_apps_loop rest install_apps keyword (matched_apps ++ [app])
          else by_display_name
      | _ => by_display_name
      end
  end.

Definition search_apps (app_list : list entry) (install_apps : list InstalledApp)
    (keyword : string) : list entry :=
  search_apps_loop app_list install_apps keyword [].

(** The package names of an entry: one for a string, many for a list. *)
Definition package_names (app : entry) : list string :=
  match get app "packageName" with
  | VStr s => [s]
  | VList l => l
  | _ => []
  end.

(** The matcher as the specification words it: the keyword is in one of the
    entry's package names, or in the display name of an installed app whose
    bundle identifier is one of them. *)
Definition spec_match (keyword : string) (install_apps : list InstalledApp)
    (app : entry) : Prop :=
  (∃ name, name ∈ package_names app ∧ PyStr.ci_substring keyword name) ∨
  (∃ ia name, ia ∈ install_apps ∧ name ∈ package_names app ∧
      CFBundleIdentifier ia = Some name ∧
      PyStr.ci_substring keyword (CFBundleName ia)).

(** What the code tests: the display-name link compares the identifier with
    the whole [packageName] value. *)
Definition code_match (keyword : string) (install_apps : list InstalledApp)
    (app : entry) : Prop :=
  (∃ name, name ∈ package_names app ∧ PyStr.ci_substring keyword name) ∨
  (∃ ia, ia ∈ install_apps ∧
      id_eq (CFBundleIdentifier ia) (get app "packageName") = true ∧
      PyStr.ci_substring keyword (CFBundleName ia)).

(* ===================================================================== *)
(** ** Compatibility gate: [check_compatible] *)
(* ===================================================================== *)

(** The [for code in codes: if v == code: return True] loop. *)
Fixpoint any_equal (v : string) (codes : list string) : bool :=
  match codes with
  | [] => false
  | code :: rest => if decide (v = code) then true else any_equal v rest
  end.

(** [None] stands for the [TypeError] of iterating over a number or a
    boolean. *)
Definition check_compatible (compatible_version_code compatible_version_subcode : value)
    (app_version_code app_subversion_code : string) : option bool :=
  if is_none compatible_version_code && is_none compatible_version_subcode then Some true
  else
    let second :=
      if truthy compatible_version_subcode then
        match py_iter compatible_version_subcode with
        | None => None
        | Some codes => Some (any_equal app_subversion_code codes)
        end
      else Some false in
    if truthy compatible_version_code then
      match py_iter compatible_version_code with
      | None => None
      | Some codes => if any_equal app_version_code codes then Some true else second
      end
    else second.

(** A declared allow-list: absent, or a list of strings. *)
Definition allow_list (o : option (list string)) : value :=
  match o with
  | None => VNone
  | Some l => VList l
  end.

(* ===================================================================== *)
(** ** Bundle scanner: [parse_app_info] and [scan_apps] *)
(* ===================================================================== *)

(** The manifest as [plistlib.load] returns it, its identity keys being
    strings. Opening and loading the file is [fs_load_plist] (in the
    scanner) or the event [LoadPlist] (in [main]); [parse_app_info] below is
    the rest of the function, from the loaded manifest on. *)
Abbreviation plist := (gmap string string).

Definition parse_app_info (app_base_locate : string) (app_info : plist) : InstalledApp :=
  {| appBaseLocate := app_base_locate;
     CFBundleIdentifier := app_info !! "CFBundleIdentifier";
     CFBundleVersion := default EmptyString (app_info !! "CFBundleVersion");
     CFBundleShortVersionString := default EmptyString (app_info !! "CFBundleShortVersionString");
     CFBundleName := default EmptyString (app_info !! "CFBundleExecutable");
     CFBundleExecutable := default EmptyString (app_info !! "CFBundleExecutable") |}.

(** The file system as the scanner sees it. [listdir] is [None] when
    [os.listdir] raises; [load_plist] is [None] when opening or parsing the
    manifest raises. *)
Record filesystem : Type := mkFilesystem {
  fs_exists : string → bool;
  fs_listdir : string → option (list string);
  fs_load_plist : string → option plist;
}.

Definition info_plist_path (base_dir app : string) : string :=
  PyStr.path_join (PyStr.path_join (PyStr.path_join base_dir app) "Contents") "Info.plist".

(** The [for app in lst] loop. *)
Fixpoint scan_dir (fs : filesystem) (base_dir : string) (lst : list string)
    (appList : list InstalledApp) : list InstalledApp :=
  match lst with
  | [] => appList
  | app :: rest =>
      let app_info_file := info_plist_path base_dir app in
      if negb (fs_exists fs app_info_file) then scan_dir fs base_dir rest appList
      else match fs_load_plist fs app_info_file with
           | Some app_info =>
               scan_dir fs base_dir rest
                 (appList ++ [parse_app_info (base_dir +:+ "/" +:+ app) app_info])
           | None => scan_dir fs base_dir rest appList
           end
  end.

(** The [for base_dir in base_dirs] loop. *)
Fixpoint scan_roots (fs : filesystem) (base_dirs : list string)
    (appList : list InstalledApp) : option (list InstalledApp) :=
  match base_dirs with
  | [] => Some appList
  | base_dir :: rest =>
      if negb (fs_exists fs base_dir) then scan_roots fs rest appList
      else match fs_listdir fs base_dir with
           | None => None
           | Some lst => scan_roots fs rest (scan_dir fs base_dir lst appList)
           end
  end.

Definition base_dirs : list string := ["/Applications"; "/Applications/Setapp"].

Definition scan_apps (fs : filesystem) : option (list InstalledApp) :=
  scan_roots fs base_dirs [].

(* ===================================================================== *)
(** ** Programs that talk to the operating system *)
(* ===================================================================== *)

(** [subprocess.run(s, shell=True)] or [subprocess.run([a; b; ...])]. *)
Inductive command : Type :=
| Shell (s : string)
| Exec (args : list string).

#[global] Instance command_eq_dec : EqDecision command.
Proof. solve_decision. Defined.

(** A request to the world, indexed by the type of its answer. An answer of
    [None] or [false] where the Python call can raise stands for the
    exception. *)
Inductive event : Type → Type :=
| Run (c : command) : event Z
| PathExists (p : string) : event bool
| IsDir (p : string) : event bool
| Remove (p : string) : event bool
| LoadPlist (p : string) : event (option plist)
| ReadFile (p : string) : event (option string)
| WriteFile (p content : string) : event bool
| Input (prompt : string) : event (option string)
| Print (s : string) : event unit.

Definition is_run {X : Type} (e : event X) : bool :=
  match e with
  | Run _ => true
  | _ => false
  end.

(** A program: it returns, raises, or asks the world and goes on with the
    answer. *)
Inductive prog (A : Type) : Type :=
| Ret (a : A)
| Throw
| Vis {X : Type} (e : event X) (k : X → prog A).

Arguments Ret {A} a.
Arguments Throw {A}.
Arguments Vis {A X} e k.

Fixpoint bind {A B : Type} (p : prog A) (f : A → prog B) : prog B :=
  match p with
  | Ret a => f a
  | Throw => Throw
  | Vis e k => Vis e (λ x, bind (k x) f)
  end.

#[global] Instance prog_ret : MRet prog := @Ret.
#[global] Instance prog_bind : MBind prog := λ A B f p, bind p f.

(** [for x in l: body x] *)
Fixpoint for_each {T : Type} (l : list T) (body : T → prog unit) : prog unit :=
  match l with
  | [] => Ret tt
  | x :: rest => bind (body x) (λ _, for_each rest body)
  end.

(** [[f(x) for x in l]] where [f] talks to the world. *)
Fixpoint map_prog {T U : Type} (f : T → prog U) (l : list T) : prog (list U) :=
  match l with
  | [] => Ret []
  | x :: rest => bind (f x) (λ y, bind (map_prog f rest) (λ ys, Ret (y :: ys)))
  end.

(** [subprocess.run(...)]: the returned [CompletedProcess] is dropped. *)
Definition run (c : command) : prog unit := Vis (Run c) (λ _, Ret tt).
Definition sh (s : string) : prog unit := run (Shell s).
Definition print (s : string) : prog unit := Vis (Print s) (λ _, Ret tt).

Definition raise_if_none {A : Type} (o : option A) : prog A :=
  match o with
  | Some a => Ret a
  | None => Throw
  end.

(** [input(prompt)] *)
Definition input (prompt : string) : prog string :=
  Vis (Input prompt) raise_if_none.

(** [read_input(prompt)] *)
Definition read_input (prompt : string) : prog string :=
  s ← input prompt; mret (PyStr.lower (PyStr.strip s)).

Definition path_exists (p : string) : prog bool := Vis (PathExists p) Ret.

(** A handler answers every event and moves the world. *)
Definition handler (S : Type) : Type := ∀ X : Type, event X → S → S * X.

Inductive outcome (A : Type) : Type :=
| Done (a : A)
| Raised.

Arguments Done {A} a.
Arguments Raised {A}.

(** An event as the trace records it: what was asked, not what was
    answered. *)
Definition logged : Type := { X : Type & event X }.

Definition log_of {X : Type} (e : event X) : logged := existT X e.

(** Run [p] in world [s]; the result is the trace of events in the order
    they were issued, the final world and how [p] ended. *)
Fixpoint interp {S A : Type} (h : handler S) (p : prog A) (s : S)
    : list logged * S * outcome A :=
  match p with
  | Ret a => ([], s, Done a)
  | Throw => ([], s, Raised)
  | Vis e k =>
      let '(s', x) := h _ e s in
      let '(tr, s'', r) := interp h (k x) s' in
      (log_of e :: tr, s'', r)
  end.

(** The commands of a trace. *)
Definition commands_of (tr : list logged) : list command :=
  omap (λ l : logged, match projT2 l with Run c => Some c | _ => None end) tr.

(** A program that never looks at the exit status of a command it ran. *)
Inductive status_blind {A : Type} : prog A → Prop :=
| sb_ret a : status_blind (Ret a)
| sb_throw : status_blind Throw
| sb_run c k :
    (∀ z, k z = k 0) → status_blind (k 0) → status_blind (Vis (Run c) k)
| sb_vis X (e : event X) k :
    is_run e = false → (∀ x, status_blind (k x)) → status_blind (Vis e k).

(* ===================================================================== *)
(** ** [main.py]: helpers of the action sequencer *)
(* ===================================================================== *)

Definition dquote : string := String (ascii_of_nat 34) EmptyString.
Definition backslash : string := String (ascii_of_nat 92) EmptyString.

(** What the script reads from its process environment:
    [Path(__file__).resolve().parent], [os.getenv("InjectLibDev")] and
    [os.path.expanduser("~")]. *)
Record runtime : Type := mkRuntime {
  here : string;
  isDevHome : option string;
  user_dir : string;
}.

(** [s.replace(old, new)] for a non-empty [old]; [skip] characters of a
    match just replaced are still to be dropped. *)
Fixpoint replace_skip (old new s : string) (skip : nat) : string :=
  match s with
  | EmptyString => EmptyString
  | String c r =>
      match skip with
      | S n => replace_skip old new r n
      | O =>
          if PyStr.startswith old s
          then new +:+ replace_skip old new r (String.length old - 1)
          else String c (replace_skip old new r 0)
      end
  end.

Definition replace (old new s : string) : string := replace_skip old new s 0.

Definition handle_keygen (rt : runtime) (bundleIdentifier : string) : prog unit :=
  let username := PyStr.last_segment (user_dir rt) in
  sh "chmod +x ./tool/KeygenStarter";;
  sh ("./tool/KeygenStarter '" +:+ bundleIdentifier +:+ "' '" +:+ username +:+ "'").

Definition handle_helper (app_base target_helper : string) (component_apps SMExtra : value)
    (bridge_path : string) : prog unit :=
  sh "chmod +x ./tool/GenShineImpactStarter";;
  sh ("./tool/GenShineImpactStarter '" +:+ target_helper +:+ "' "
        +:+ (if is_none SMExtra then EmptyString else py_str SMExtra));;
  sh ("./tool/insert_dylib '" +:+ bridge_path +:+ "91QiuChenly.dylib' '"
        +:+ target_helper +:+ "' '" +:+ target_helper +:+ "'");;
  let helper_name := PyStr.last_segment target_helper in
  let target := "/Library/LaunchDaemons/" +:+ helper_name +:+ ".plist" in
  present ← path_exists target;
  (if present : bool then
     sh ("sudo /bin/launchctl unload " +:+ target);;
     sh ("sudo /usr/bin/killall -u root -9 " +:+ helper_name);;
     sh ("sudo /bin/rm " +:+ target);;
     sh ("sudo /bin/rm /Library/PrivilegedHelperTools/" +:+ helper_name)
   else Ret tt);;
  sh ("sudo xattr -c '" +:+ app_base +:+ "'");;
  let src_info :=
    (app_base +:+ "/Contents/Info.plist") ::
    match component_apps with
    | VList l => (λ i, app_base +:+ i +:+ "/Contents/Info.plist") <$> l
    | _ => []
    end in
  for_each src_info (λ i,
    run (Exec ["/usr/libexec/PlistBuddy"; "-c";
               "Set :SMPrivilegedExecutables:" +:+ helper_name +:+ " 'identifier "
                 +:+ backslash +:+ dquote +:+ helper_name +:+ backslash +:+ dquote +:+ "'";
               i]));;
  sh ("/usr/bin/codesign -f -s - --all-architectures --deep "
        +:+ dquote +:+ target_helper +:+ dquote);;
  sh ("/usr/bin/codesign -f -s - --all-architectures --deep "
        +:+ dquote +:+ app_base +:+ dquote).

Definition load_plist (p : string) : prog plist :=
  o ← Vis (LoadPlist p) Ret; raise_if_none o.

(** [app_info[key]]: a [KeyError] when the key is absent. *)
Definition getAppMainExecutable (app_base : string) : prog string :=
  app_info ← load_plist (app_base +:+ "/Contents/Info.plist");
  raise_if_none (app_info !! "CFBundleExecutable").

Definition getBundleID (app_base : string) : prog string :=
  app_info ← load_plist (app_base +:+ "/Contents/Info.plist");
  raise_if_none (app_info !! "CFBundleIdentifier").

(* ===================================================================== *)
(** ** [main.py]: the action sequencer (body of [for app in app_Lst]) *)
(* ===================================================================== *)

(** A value used as a string operand: anything but a string is a
    [TypeError]. *)
Definition require_str (v : value) : prog string :=
  match v with
  | VStr s => Ret s
  | _ => Throw
  end.

(** An identifier as an f-string prints it. *)
Definition fmt_ident (o : option string) : string :=
  match o with
  | Some s => s
  | None => "None"
  end.

Definition adobe_js : string :=
  "/Applications/Utilities/Adobe Creative Cloud/Components/Apps/Apps1_0.js".

Definition adobe_old : string :=
  "key:" +:+ dquote +:+ "getEntitlementStatus" +:+ dquote +:+ ",value:function(e){".

Definition adobe_marker : string :=
  adobe_old +:+ "return " +:+ dquote +:+ "Entitled Installed" +:+ dquote.

Definition adobe_new : string := adobe_marker +:+ ";".

(** Lines 325-356: the Adobe Creative Cloud patch. *)
Definition adobe_patch : prog unit :=
  sh ("sudo chmod -R 777 /Applications/Utilities/Adobe" +:+ backslash +:+ " Creative"
        +:+ backslash +:+ " Cloud/Components/Apps/*");;
  present ← path_exists adobe_js;
  if present : bool then Ret tt
  else
    o ← Vis (ReadFile adobe_js) Ret;
    content ← raise_if_none o;
    if PyStr.contains adobe_marker content then Ret tt
    else
      ok ← Vis (WriteFile adobe_js (replace adobe_old adobe_new content)) Ret;
      if ok : bool then Ret tt else Throw.

Definition cp_cmd (dest backup : string) : string :=
  "sudo cp '" +:+ dest +:+ "' '" +:+ backup +:+ "'".

(** Lines 376-383: create the backup or reuse the one that is there. *)
Definition backup_phase (dest backup : string) : prog unit :=
  present ← path_exists backup;
  if present : bool then
    print "备份的原始文件已经存在,需要直接用这个文件注入吗？y/n(默认y)";;
    answer ← read_input EmptyString;
    let action := PyStr.lower (PyStr.strip answer) in
    if decide (action = "n") then
      ok ← Vis (Remove backup) Ret;
      if ok : bool then sh (cp_cmd dest backup) else Throw
    else Ret tt
  else sh (cp_cmd dest backup).

(** [insert_dylib <library> <input binary> <output binary>] *)
Definition insert_dylib_cmd (rt : runtime) (library input output : string) : string :=
  "sudo " +:+ here rt +:+ "/tool/insert_dylib " +:+ library +:+ " '" +:+ input
    +:+ "' '" +:+ output +:+ "'".

Definition dev_home (rt : runtime) : option string :=
  match isDevHome rt with
  | Some s => if decide (s = EmptyString) then None else Some s
  | None => None
  end.

(** The binaries to inject when the library is copied into the bundle:
    the target and the executable of every component application. *)
Definition desire_apps (dest app_base_locate : string) (componentApp : value)
    : prog (list string) :=
  if truthy componentApp then
    l ← raise_if_none (py_iter componentApp);
    extra ← map_prog (λ i,
               exe ← getAppMainExecutable (app_base_locate +:+ i);
               mret (app_base_locate +:+ i +:+ "/Contents/MacOS/" +:+ exe)) l;
    mret (dest :: extra)
  else mret [dest].

(** Lines 385-423: the injection. *)
Definition inject_phase (rt : runtime) (app : entry) (app_base_locate : string)
    (bridge_file : value) (dest backup : string) : prog unit :=
  sh ("chmod +x " +:+ here rt +:+ "/tool/insert_dylib");;
  if truthy (get app "needCopyToAppDir") then
    let source_dylib :=
      match dev_home rt with
      | Some d => d
      | None => here rt +:+ "/tool/91QiuChenly.dylib"
      end in
    let destination_dylib :=
      "'" +:+ app_base_locate +:+ py_str bridge_file +:+ "91QiuChenly.dylib'" in
    let command :=
      match dev_home rt with
      | Some _ => "ln -f -s"
      | None => "cp"
      end in
    sh (command +:+ " " +:+ source_dylib +:+ " " +:+ destination_dylib);;
    desireApp ← desire_apps dest app_base_locate (get app "componentApp");
    for_each desireApp (λ it, sh (insert_dylib_cmd rt destination_dylib backup it))
  else
    sh (insert_dylib_cmd rt ("'" +:+ here rt +:+ "/tool/91QiuChenly.dylib'") backup dest).

Definition when (b : bool) (p : prog unit) : prog unit := if b then p else Ret tt.

(** Lines 425-452: signing and the extra shell script. *)
Definition sign_phase (rt : runtime) (app : entry) (app_base_locate dest : string)
    : prog unit :=
  let sign_prefix0 := "/usr/bin/codesign -f -s - --timestamp=none --all-architectures" in
  when (is_none (get app "noDeep")) (print "Need Deep Sign.");;
  let sign_prefix1 :=
    if is_none (get app "noDeep") then sign_prefix0 +:+ " --deep" else sign_prefix0 in
  let sign_prefix :=
    if is_none (get app "entitlements") then sign_prefix1
    else sign_prefix1 +:+ " --entitlements " +:+ here rt +:+ "/tool/"
           +:+ py_str (get app "entitlements") in
  when (is_none (get app "noSignTarget"))
    (print "开始签名...";; sh (sign_prefix +:+ " '" +:+ dest +:+ "'"));;
  when (negb (is_none (get app "disableLibraryValidate")))
    (sh "sudo defaults write /Library/Preferences/com.apple.security.libraryvalidation.plist DisableLibraryValidation -bool true");;
  when (negb (is_none (get app "extraShell")))
    (sh ("sudo sh " +:+ here rt +:+ "/tool/" +:+ py_str (get app "extraShell")));;
  when (truthy (get app "deepSignApp"))
    (sh (sign_prefix +:+ " '" +:+ app_base_locate +:+ "'")).

(** Lines 455-470: the privileged helpers. *)
Definition helper_phase (app : entry) (app_base_locate : string) (bridge_file : value)
    : prog unit :=
  let helper_file := get app "helperFile" in
  when (truthy (get app "autoHandleHelper") && truthy helper_file)
    (let helpers :=
       match helper_file with
       | VList l => l
       | v => [py_str v]
       end in
     for_each helpers (λ helper,
       handle_helper app_base_locate (app_base_locate +:+ helper)
         (get app "componentApp") (get app "SMExtra")
         (app_base_locate +:+ py_str bridge_file))).

(** Lines 471-488: the privacy-permission reset. *)
Definition tcc_phase (app : entry) (app_base_locate ident : string) : prog unit :=
  let tccutil := get app "tccutil" in
  when (negb (is_none tccutil) && truthy tccutil)
    (extra ← match get app "componentApp" with
             | VList l => map_prog (λ i, getBundleID (app_base_locate +:+ i)) l
             | _ => mret []
             end;
     for_each (ident :: extra) (λ id,
       match tccutil with
       | VStr t => sh ("tccutil reset " +:+ t +:+ " " +:+ id)
       | VList l => for_each l (λ i, sh ("tccutil reset " +:+ i +:+ " " +:+ id))
       | _ => Ret tt
       end)).

(** Lines 320-490: what is done to an app the user approved. *)
Definition sequencer (rt : runtime) (app : entry) (local_app : InstalledApp)
    (app_base_locate bridge_file inject_file : value) : prog unit :=
  if truthy (get app "onlysh") then
    sh ("sudo sh tool/" +:+ py_str (get app "extraShell"))
  else
    ident ← raise_if_none (CFBundleIdentifier local_app);
    when (PyStr.startswith "com.adobe" ident) adobe_patch;;
    print ("开始注入App: " +:+ py_str (get app "packageName"));;
    abl ← require_str app_base_locate;
    run (Exec ["sudo"; "chmod"; "-R"; "777"; abl]);;
    run (Exec ["sudo"; "xattr"; "-cr"; abl]);;
    exe ← getAppMainExecutable abl;
    run (Exec ["sudo"; "pkill"; "-f"; exe]);;
    if negb (is_none (get app "keygen")) then
      print "正在注册App...";;
      handle_keygen rt ident
    else
      let dest := abl +:+ py_str bridge_file +:+ py_str inject_file in
      let backup := dest +:+ "_backup" in
      backup_phase dest backup;;
      inject_phase rt app abl bridge_file dest backup;;
      sign_phase rt app abl dest;;
      sh ("sudo xattr -cr '" +:+ dest +:+ "'");;
      helper_phase app abl bridge_file;;
      tcc_phase app abl ident;;
      print "App处理完成。".

(** Lines 241-318 followed by the sequencer: one turn of
    [for app in app_Lst]. A [continue] ends the turn with [Ret tt].
    [os.path.isdir] of a number or a boolean looks at a file descriptor,
    which is not a directory here, so the entry is skipped; of a list it
    is a [TypeError]. *)
Definition process_app (rt : runtime) (base_public_config : entry)
    (install_apps : list InstalledApp) (app : entry) : prog unit :=
  let package_name := get app "packageName" in
  let app_base_locate := get app "appBaseLocate" in
  let found :=
    List.filter (λ local_app, id_eq (CFBundleIdentifier local_app) package_name)
      install_apps in
  skip ← match found with
         | [] =>
             match app_base_locate with
             | VNone => mret true
             | VStr p => d ← Vis (IsDir p) Ret; mret (negb d)
             | VInt _ | VBool _ => mret true
             | VList _ => Throw
             end
         | _ => mret false
         end;
  if skip : bool then Ret tt
  else
    local_app ← match found with
                | [] =>
                    p ← require_str app_base_locate;
                    app_info ← load_plist
                      (PyStr.path_join (PyStr.path_join p "Contents") "Info.plist");
                    mret (parse_app_info p app_info)
                | first :: _ => mret first
                end;
    let app_base_locate :=
      if is_none app_base_locate then VStr (appBaseLocate local_app)
      else app_base_locate in
    let bridge_file0 :=
      if is_none (get app "bridgeFile") then get base_public_config "bridgeFile"
      else get app "bridgeFile" in
    '(bridge_file, inject_file) ←
      (if negb (is_none (get app "autoHandleSetapp")) then
         let bridge_file := "/Contents/MacOS/" in
         abl ← require_str app_base_locate;
         let inject_file :=
           PyStr.last_segment (abl +:+ bridge_file +:+ CFBundleExecutable local_app) in
         print ("======== Setapp下一个App的处理结果如下 [" +:+ abl +:+ "] ["
                  +:+ bridge_file +:+ "] [" +:+ inject_file +:+ "]");;
         mret (VStr bridge_file, VStr inject_file)
       else mret (bridge_file0, get app "injectFile"));
    compatible ← raise_if_none
      (check_compatible (get app "supportVersion") (get app "supportSubVersion")
         (CFBundleShortVersionString local_app) (CFBundleVersion local_app));
    if negb compatible then
      print ("[😅] [" +:+ CFBundleName local_app +:+ "] - ["
               +:+ CFBundleShortVersionString local_app +:+ "] - ["
               +:+ fmt_ident (CFBundleIdentifier local_app)
               +:+ "]不是受支持的版本，跳过注入😋。")
    else
      print ("[🤔] [" +:+ CFBundleName local_app +:+ "] - ["
               +:+ CFBundleShortVersionString local_app
               +:+ "] 是受支持的版本，是否需要注入？y/n(默认n)");;
      answer ← read_input EmptyString;
      let action := PyStr.lower (PyStr.strip answer) in
      if decide (action = "y")
      then sequencer rt app local_app app_base_locate bridge_file inject_file
      else Ret tt.

(* ===================================================================== *)
(** ** [main.py]: selection and expansion of the work list *)
(* ===================================================================== *)

(** Lines 219-226 and 233-239: a list-valued [packageName] becomes one
    copy of the entry per name, [tmp = app.copy(); tmp["packageName"] = name].
    [None] is the [KeyError] of [app["packageName"]]. *)
Definition expand (app : entry) : option (list entry) :=
  match app !! "packageName" with
  | None => None
  | Some (VList names) => Some ((λ name, <["packageName" := VStr name]> app) <$> names)
  | Some _ => Some [app]
  end.

(** Lines 212-218: what the answer to the selection prompt leads to, for
    an answer that is a [plain_line] (on other answers [str.isdigit] and
    [int] differ from [PyStr.isdigit] and [PyStr.int]). *)
Inductive selection : Type :=
| Exited
| Selected (app : entry).

Definition select_app (matched_apps : list entry) (choice : string) : selection :=
  if negb (PyStr.isdigit choice) || (PyStr.int choice =? 0)%Z
     || (Z.of_nat (length matched_apps) <? PyStr.int choice)%Z
  then Exited
  else match matched_apps !! Z.to_nat (PyStr.int choice - 1) with
       | Some app => Selected app
       | None => Exited
       end.

(** Lines 205-226: keyword mode, after a non-empty match. [None] is the
    early [return]. *)
Definition keyword_mode (matched_apps : list entry) : prog (option (list entry)) :=
  print "找到以下匹配的应用程序:";;
  for_each (imap (λ i app, (S i, app)) matched_apps) (λ '(i, app),
    let package_name :=
      match get app "packageName" with
      | VList l => PyStr.join " / " l
      | v => py_str v
      end in
    print (pretty i +:+ ". " +:+ package_name));;
  print "请输入要注入的应用程序编号,或输入0退出:";;
  raw ← input EmptyString;
  match select_app matched_apps (PyStr.strip raw) with
  | Exited => print "已退出程序。";; mret None
  | Selected selected_app =>
      app_Lst ← raise_if_none (expand selected_app);
      mret (Some app_Lst)
  end.

(** Lines 228-239: browse-all mode. *)
Fixpoint browse_mode (app_list : list entry) (app_Lst : list entry)
    : prog (list entry) :=
  match app_list with
  | [] => mret app_Lst
  | app :: rest =>
      items ← raise_if_none (expand app);
      skip ← (if truthy (get app "forQiuChenly")
              then present ← path_exists "/Users/qiuchenly"; mret (negb present)
              else mret false);
      if skip : bool then browse_mode rest app_Lst
      else browse_mode rest (app_Lst ++ items)
  end.

(** [main], from the keyword prompt on; [install_apps] is what [scan_apps]
    returned. *)
Definition main (rt : runtime) (base_public_config : entry) (app_list : list entry)
    (install_apps : list InstalledApp) : prog unit :=
  print "请输入应用名称或包名的关键字进行搜索,或直接按回车键遍历所有支持的应用:";;
  raw ← input EmptyString;
  let keyword := PyStr.strip raw in
  work ← (if decide (keyword = EmptyString) then
            app_Lst ← browse_mode app_list []; mret (Some app_Lst)
          else
            let matched_apps := search_apps app_list install_apps keyword in
            match matched_apps with
            | [] => print "未找到匹配的应用程序。";; mret None
            | _ => keyword_mode matched_apps
            end);
  match work with
  | None => Ret tt
  | Some app_Lst => for_each app_Lst (process_app rt base_public_config install_apps)
  end.

(* ===================================================================== *)
(** ** [src/ui/menu_manager.py]: [MenuManager] *)
(* ===================================================================== *)

(** The application manager as the menu uses it. Its class is not part of
    these sources: the fields stand for its attributes and for the results
    of its methods. *)
Record AppManager : Type := mkAppManager {
  app_list : list entry;
  installed_apps : list InstalledApp;
  get_installed_supported_apps : list entry;
  search_by_keyword : string → list entry;
}.

(** [display_supported_apps(app_list, install_apps, page, page_size)] of
    [src.app.search], not part of these sources: it returns the apps shown,
    the page shown and the number of pages. *)
Definition display_fn : Type :=
  list entry → list InstalledApp → Z → Z → list entry * Z * Z.

(** The attributes of [MenuManager] the main menu reads and writes. *)
Record MenuManager : Type := mkMenuManager {
  current_page : Z;
  page_size : Z;
  last_displayed_apps : list entry;
}.

(** [__init__] *)
Definition MenuManager_init : MenuManager :=
  {| current_page := 0; page_size := 20; last_displayed_apps := [] |}.

(** Lines 192-193: the page and the offset within the page of the
    1-based index [app_idx]. *)
Definition page_num (page_size app_idx : Z) : Z := (app_idx - 1) `div` page_size.
Definition page_idx (page_size app_idx : Z) : Z := (app_idx - 1) `mod` page_size.

(** Lines 161-172: the page after [n] or [p]. *)
Definition next_page (current total_pages : Z) : Z :=
  if (current <? total_pages - 1)%Z then current + 1 else current.

Definition prev_page (current : Z) : Z :=
  if (0 <? current)%Z then current - 1 else current.

(** [l[i]]: a negative index counts from the end; [None] is the
    [IndexError]. *)
Definition py_index {A : Type} (l : list A) (i : Z) : option A :=
  if (0 <=? i)%Z then l !! Z.to_nat i
  else if (- Z.of_nat (length l) <=? i)%Z then l !! Z.to_nat (Z.of_nat (length l) + i)
  else None.

(** Lines 216-221: the first index whose [packageName] equals
    [package_name], counting from [i]. *)
Fixpoint find_package (all_installed_apps : list entry) (package_name : value)
    (i : nat) : option nat :=
  match all_installed_apps with
  | [] => None
  | app :: rest =>
      if decide (get app "packageName" = package_name) then Some i
      else find_package rest package_name (S i)
  end.

(** One turn of the [while True] loop of [show_main_menu]: it returns, goes
    round again or raises. *)
Inductive turn_result : Type :=
| Return (s : string)
| Again (m : MenuManager)
| Crash.

(** [shadowed] tells whether line 199 has rebound the local name [_] to the
    page count, so that calling it as the translation function afterwards
    is a [TypeError]. *)
Definition report_invalid (shadowed : bool) (m : MenuManager) : turn_result :=
  if shadowed then Crash else Again m.

Definition menu_digits (display : display_fn) (am : AppManager) (m : MenuManager)
    (choice : string) : turn_result :=
  let app_idx := PyStr.int choice in
  if bool_decide (choice ∈ ["1"; "2"; "3"; "4"; "5"]) then Return choice
  else
    let total_apps := Z.of_nat (length (get_installed_supported_apps am)) in
    if ((1 <=? app_idx) && (app_idx <=? total_apps))%Z then
      if (page_size m =? 0)%Z then Crash
      else
        let pn := page_num (page_size m) app_idx in
        let pidx := page_idx (page_size m) app_idx in
        let shadowed := negb (current_page m =? pn)%Z in
        let m1 :=
          if shadowed then
            let '(displayed_apps, _, _) :=
              display (app_list am) (installed_apps am) pn (page_size m) in
            {| current_page := pn; page_size := page_size m;
               last_displayed_apps := displayed_apps |}
          else m in
        if (pidx <? Z.of_nat (length (last_displayed_apps m1)))%Z then
          match py_index (last_displayed_apps m1) pidx with
          | None => Crash
          | Some selected_app =>
              match find_package (get_installed_supported_apps am)
                      (get selected_app "packageName") 0 with
              | Some global_idx => Return ("SELECT:" +:+ pretty global_idx)
              | None => report_invalid shadowed m1
              end
          end
        else report_invalid shadowed m1
    else Again m.

(** [choice] is what [read_input] returned. *)
Definition menu_turn (display : display_fn) (am : AppManager) (m : MenuManager)
    (choice : string) : turn_result :=
  let '(displayed_apps, page, total_pages) :=
    display (app_list am) (installed_apps am) (current_page m) (page_size m) in
  let m0 := {| current_page := page; page_size := page_size m;
               last_displayed_apps := displayed_apps |} in
  if decide (choice = "n") then
    Again {| current_page := next_page page total_pages; page_size := page_size m;
             last_displayed_apps := displayed_apps |}
  else if decide (choice = "p") then
    Again {| current_page := prev_page page; page_size := page_size m;
             last_displayed_apps := displayed_apps |}
  else if decide (choice = "s") then Return "1"
  else if decide (choice = "l") then Return "4"
  else if decide (choice = "q") then Return "5"
  else if PyStr.isdigit choice then menu_digits display am m0 choice
  else Again m0.

(** The menu after the list has been displayed (lines 143-148). *)
Definition shown_state (display : display_fn) (am : AppManager) (m : MenuManager)
    : MenuManager :=
  let '(displayed_apps, page, _) :=
    display (app_list am) (installed_apps am) (current_page m) (page_size m) in
  {| current_page := page; page_size := page_size m;
     last_displayed_apps := displayed_apps |}.

(** How [show_main_menu] ends on a sequence of answers. *)
Inductive menu_outcome : Type :=
| Returned (s : string)
| Crashed
| EndOfInput.

Fixpoint show_main_menu (display : display_fn) (am : option AppManager)
    (m : MenuManager) (choices : list string) : menu_outcome :=
  match am with
  | None => Returned "5"
  | Some a =>
      match choices with
      | [] => EndOfInput
      | choice :: rest =>
          match menu_turn display a m choice with
          | Return s => Returned s
          | Again m' => show_main_menu display am m' rest
          | Crash => Crashed
          end
      end
  end.

(** [choice.isdigit() and 0 < int(choice) <= len(matched_apps)]: the index
    the answer picks, for an answer that is a [plain_line]. *)
Definition picked (matched_apps : list entry) (choice : string) : option nat :=
  if PyStr.isdigit choice && (0 <? PyStr.int choice)%Z
     && (PyStr.int choice <=? Z.of_nat (length matched_apps))%Z
  then Some (Z.to_nat (PyStr.int choice - 1))
  else None.

(** The [while len(selected) < len(matched_apps)] loop of
    [handle_app_search]; [inputs] are the lines the user types, [None] is
    the [EOFError] of [input] when they run out. *)
Fixpoint select_loop (matched_apps : list entry) (inputs : list string)
    (app_Lst : list entry) (selected : gset nat) : option (list entry) :=
  if negb (size selected <? length matched_apps)%nat then Some app_Lst
  else
    match inputs with
    | [] => None
    | raw :: rest =>
        let choice := PyStr.strip raw in
        if decide (choice = "0") then
          match app_Lst with
          | [] => Some []
          | _ => Some app_Lst
          end
        else
          match picked matched_apps choice with
          | Some index =>
              if decide (index ∈ selected)
              then select_loop matched_apps rest app_Lst selected
              else match matched_apps !! index with
                   | Some app =>
                       select_loop matched_apps rest (app_Lst ++ [app])
                         ({[index]} ∪ selected)
                   | None => None
                   end
          | None =>
              if decide (choice = EmptyString) then
                match app_Lst with
                | [] => select_loop matched_apps rest app_Lst selected
                | _ => Some app_Lst
                end
              else select_loop matched_apps rest app_Lst selected
          end
    end.

Definition handle_app_search (am : AppManager) (inputs : list string)
    : option (list entry) :=
  match inputs with
  | [] => None
  | raw :: rest =>
      let keyword := PyStr.strip raw in
      if decide (keyword = EmptyString) then Some []
      else
        let matched_apps := search_by_keyword am keyword in
        match matched_apps with
        | [] => Some []
        | _ => select_loop matched_apps rest [] ∅
        end
  end.

(* ===================================================================== *)
(** ** Reference worlds and specification-side definitions *)
(* ===================================================================== *)

(** [cp src dst] when it succeeds; nothing happens when [src] is missing. *)
Definition copy_file (src dst : string) (files : gmap string string)
    : gmap string string :=
  match files !! src with
  | Some content => <[dst := content]> files
  | None => files
  end.

(** A world: the files by path and the lines the user is going to type. *)
Record world : Type := mkWorld {
  files : gmap string string;
  typed : list string;
}.

(** The handler of a world. [status] is the exit status a command reports,
    [ext] what a command does to the files, [plists] how a manifest parses
    and [dirs] which paths are directories. *)
Definition world_handler (status : command → Z)
    (ext : command → gmap string string → gmap string string)
    (plists : string → option plist) (dirs : string → bool) : handler world :=
  λ X e,
    match e in event X return world → world * X with
    | Run c => λ w, ({| files := ext c (files w); typed := typed w |}, status c)
    | PathExists p => λ w, (w, bool_decide (is_Some (files w !! p)))
    | IsDir p => λ w, (w, dirs p)
    | Remove p => λ w,
        match files w !! p with
        | Some _ => ({| files := delete p (files w); typed := typed w |}, true)
        | None => (w, false)
        end
    | LoadPlist p => λ w, (w, plists p)
    | ReadFile p => λ w, (w, files w !! p)
    | WriteFile p content => λ w,
        ({| files := <[p := content]> (files w); typed := typed w |}, true)
    | Input _ => λ w,
        match typed w with
        | [] => (w, None)
        | line :: rest => ({| files := files w; typed := rest |}, Some line)
        end
    | Print _ => λ w, (w, tt)
    end.

(** A world without state: every path exists or not according to
    [present], nothing can be read and nothing is typed. *)
Definition fixed_handler (present : bool) : handler unit :=
  λ X e,
    match e in event X return unit → unit * X with
    | Run _ => λ u, (u, 0)
    | PathExists _ => λ u, (u, present)
    | IsDir _ => λ u, (u, false)
    | Remove _ => λ u, (u, true)
    | LoadPlist _ => λ u, (u, None)
    | ReadFile _ => λ u, (u, None)
    | WriteFile _ _ => λ u, (u, true)
    | Input _ => λ u, (u, None)
    | Print _ => λ u, (u, tt)
    end.

(** Two handlers describe runs that differ in nothing but the exit
    statuses of the commands: they move the world alike and give the same
    answer to every event that is not a command. *)
Definition differ_only_in_status {S : Type} (h1 h2 : handler S) : Prop :=
  (∀ X (e : event X) s, (h1 X e s).1 = (h2 X e s).1) ∧
  (∀ X (e : event X) s, is_run e = false → (h1 X e s).2 = (h2 X e s).2).

(** What [read_input(...).strip().lower()] makes of a typed line. *)
Definition answer_of (raw : string) : string :=
  PyStr.lower (PyStr.strip (PyStr.lower (PyStr.strip raw))).

(** The test [search_apps] applies to an entry. *)
Definition code_matchb (keyword : string) (install_apps : list InstalledApp)
    (app : entry) : bool :=
  (existsb (λ name, PyStr.contains (PyStr.lower keyword) (PyStr.lower name))
     (package_names app))
  || search_installed install_apps (get app "packageName") keyword.

(** The manifest of a bundle when it is there and can be read. *)
Definition readable_manifest (fs : filesystem) (base_dir app : string) : option plist :=
  if fs_exists fs (info_plist_path base_dir app)
  then fs_load_plist fs (info_plist_path base_dir app)
  else None.

(** One record per entry of [base_dir] with a readable manifest. *)
Definition records_of_root (fs : filesystem) (base_dir : string) : list InstalledApp :=
  if fs_exists fs base_dir then
    omap (λ app, parse_app_info (base_dir +:+ "/" +:+ app)
                   <$> readable_manifest fs base_dir app)
         (default [] (fs_listdir fs base_dir))
  else [].

(** The indices in the order of their first occurrence in [picks], those
    in [seen] left out. *)
Fixpoint first_picks (picks seen : list nat) : list nat :=
  match picks with
  | [] => []
  | i :: rest =>
      if decide (i ∈ seen) then first_picks rest seen
      else i :: first_picks rest (i :: seen)
  end.

(** The indices the lines typed at the app-number prompt pick, the lines
    that pick nothing left out. *)
Definition picks_of (matched_apps : list entry) (lines : list string) : list nat :=
  omap (λ line, picked matched_apps (PyStr.strip line)) lines.

(** The selection the lines make: the picked indices, each once, in the
    order of their first pick. *)
Definition chosen (matched_apps : list entry) (lines : list string) : list nat :=
  first_picks (picks_of matched_apps lines) [].

(** The matched apps at the given indices. *)
Definition apps_at (matched_apps : list entry) (idxs : list nat) : list entry :=
  omap (λ i, matched_apps !! i) idxs.

(** Lines that leave the app-number prompt open: none of them is [0], and
    an empty line is typed only while nothing has been chosen. *)
Definition keeps_selecting (matched_apps : list entry) (lines : list string) : Prop :=
  Forall (λ line, PyStr.strip line ≠ "0") lines ∧
  ∀ pre line post, lines = pre ++ line :: post → PyStr.strip line = EmptyString →
    chosen matched_apps pre = [].

(** The same within the loop, where [app_Lst] holds the apps chosen so far
    and [seen] their indices. *)
Definition stays_open (matched_apps : list entry) (app_Lst : list entry)
    (seen : list nat) (lines : list string) : Prop :=
  Forall (λ line, PyStr.strip line ≠ "0") lines ∧
  ∀ pre line post, lines = pre ++ line :: post → PyStr.strip line = EmptyString →
    app_Lst = [] ∧ first_picks (picks_of matched_apps pre) seen = [].

(** The set [selected] of the loop holds the indices of [seen], each once,
    and no more of them than there are matched apps. *)
Definition tracks (matched_apps : list entry) (selected : gset nat) (seen : list nat)
    : Prop :=
  (∀ i, i ∈ selected ↔ i ∈ seen) ∧ size selected = length seen ∧
  (length seen ≤ length matched_apps)%nat.

(** How a session at the app-number prompt ends after [lines], [tail]
    being what is typed next and [res] what has been chosen: every matched
    app is chosen, or the next line is [0], or it is empty and something
    has been chosen. *)
Definition session_ends (matched_apps : list entry) (chosen_count : nat)
    (tail : list string) (res : list entry) : Prop :=
  chosen_count = length matched_apps ∨
  ((chosen_count < length matched_apps)%nat ∧
   ∃ stop rest, tail = stop :: rest ∧
     (PyStr.strip stop = "0" ∨ (PyStr.strip stop = EmptyString ∧ res ≠ []))).

(** The entries browse-all mode keeps: those the [forQiuChenly] guard does
    not skip, [present] telling whether [/Users/qiuchenly] exists. *)
Definition kept_in_browse (present : bool) (app : entry) : bool :=
  negb (truthy (get app "forQiuChenly") && negb present).

(** An answer the main menu does not know: not a navigation key and not a
    number. *)
Definition unknown_choice (choice : string) : Prop :=
  (choice ∉ ["n"; "p"; "s"; "l"; "q"]) ∧ PyStr.isdigit choice = false.

(** Example data. *)
Definition example_rt : runtime :=
  {| here := "/opt/InjectLib"; isDevHome := None; user_dir := "/Users/me" |}.

Definition example_installed : InstalledApp :=
  {| appBaseLocate := "/Applications/Foo.app";
     CFBundleIdentifier := Some "com.a";
     CFBundleVersion := "100";
     CFBundleShortVersionString := "1.0";
     CFBundleName := "Foo";
     CFBundleExecutable := "Foo" |}.

Definition example_list_entry : entry :=
  {[ "packageName" := VList ["com.a"; "com.b"] ]}.

Definition example_entry : entry :=
  {[ "packageName" := VStr "com.a" ]}.

Definition example_private_entry : entry :=
  <["forQiuChenly" := VBool true]> {[ "packageName" := VStr "com.x" ]}.

Definition example_fs : filesystem :=
  {| fs_exists := λ p, bool_decide (p ∈ ["/Applications";
                                          "/Applications/Foo.app/Contents/Info.plist";
                                          "/Applications/Bad.app/Contents/Info.plist"]);
     fs_listdir := λ p, if decide (p = "/Applications")
                        then Some ["Foo.app"; "Bad.app"; "notes.txt"] else None;
     fs_load_plist := λ p, if decide (p = "/Applications/Foo.app/Contents/Info.plist")
                           then Some {[ "CFBundleExecutable" := "Foo" ]} else None |}.

Definition example_display : display_fn :=
  λ apps _ page size, (apps, page, 3).

Definition example_manager : AppManager :=
  {| app_list := [example_entry];
     installed_apps := [example_installed];
     get_installed_supported_apps := [example_entry];
     search_by_keyword := λ _, [example_entry; example_list_entry] |}.




Definition is_remove (l : logged) : bool :=
  match projT2 l with
  | Remove _ => true
  | _ => false
  end.

Definition example_catalog_entry : entry :=
  <["injectFile" := VStr "Foo"]>
    (<["bridgeFile" := VStr "/Contents/MacOS/"]> {[ "packageName" := VStr "com.a" ]}).

Definition example_dest : string := "/Applications/Foo.app/Contents/MacOS/Foo".

Definition example_ext (c : command) (fs : gmap string string) : gmap string string :=
  if decide (c = Shell (cp_cmd example_dest (example_dest +:+ "_backup")))
  then copy_file example_dest (example_dest +:+ "_backup") fs
  else fs.

Definition example_plists (p : string) : option plist :=
  if decide (p = "/Applications/Foo.app/Contents/Info.plist")
  then Some {[ "CFBundleExecutable" := "Foo" ]}
  else None.

Definition example_world : world :=
  {| files := {[ example_dest := "binary" ]}; typed := ["com"; "1"; "y"] |}.

Definition example_handler (exit_status : Z) : handler world :=
  world_handler (λ _, exit_status) example_ext example_plists (λ _, false).

(** A name without a slash, as [os.listdir] returns them. *)
Fixpoint no_slash (s : string) : bool :=
  match s with
  | EmptyString => true
  | String c r => if decide (c = "/"%char) then false else no_slash r
  end.

Definition is_input (l : logged) : bool :=
  match projT2 l with
  | Input _ => true
  | _ => false
  end.

(** The events that change something outside the program. *)
Definition mutating {X : Type} (e : event X) : bool :=
  match e with
  | Run _ | Remove _ | WriteFile _ _ => true
  | _ => false
  end.

(** Every event a program may issue satisfies [P]. *)
Inductive all_events {A : Type} (P : logged → Prop) : prog A → Prop :=
| ae_ret a : all_events P (Ret a)
| ae_throw : all_events P Throw
| ae_vis X (e : event X) k :
    P (log_of e) → (∀ x, all_events P (k x)) → all_events P (Vis e k).

(** As long as no typed line is a yes, the program changes nothing and
    what it returns satisfies [Q]: below an [Input] only the answers that
    are not [y] are followed, and no other event on the way is mutating. *)
Inductive unapproved {A : Type} (Q : A → Prop) : prog A → Prop :=
| un_ret a : Q a → unapproved Q (Ret a)
| un_throw : unapproved Q Throw
| un_input prompt k :
    (∀ o, (∀ raw, o = Some raw → answer_of raw ≠ "y") → unapproved Q (k o)) →
    unapproved Q (Vis (Input prompt) k)
| un_vis X (e : event X) k :
    mutating e = false → is_input (log_of e) = false →
    (∀ x, unapproved Q (k x)) → unapproved Q (Vis e k).








(** An event that neither asks the user nor changes anything. *)
Definition silent (l : logged) : Prop :=
  is_input l = false ∧ mutating (projT2 l) = false.


(* ===================================================================== *)
(** * Properties *)
(* ===================================================================== *)

(** ** Strings *)

Lemma startswith_spec (p s : string) :
  PyStr.startswith p s = true ↔ ∃ post, s = p +:+ post.
Proof.
  revert s. induction p as [|a p IH]; intros s; simpl.
  - split; [intros _; by exists s | done].
  - destruct s as [|b s].
    + split; [done | intros [post H]; discriminate].
    + destruct (decide (a = b)) as [->|Hne].
      * rewrite IH. split; intros [post H]; exists post.
        -- by rewrite H.
        -- by injection H.
      * split; [done | intros [post H]; injection H; congruence].
Qed.

Lemma contains_spec (needle hay : string) :
  PyStr.contains needle hay = true ↔ ∃ pre post, hay = pre +:+ needle +:+ post.
Proof.
  split.
  - induction hay as [|c r IH]; simpl.
    + destruct (PyStr.startswith needle EmptyString) eqn:E; [|done].
      intros _. apply startswith_spec in E as [post E]. by exists EmptyString, post.
    + destruct (PyStr.startswith needle (String c r)) eqn:E.
      * intros _. apply startswith_spec in E as [post E]. by exists EmptyString, post.
      * intros H. destruct (IH H) as (pre & post & ->). by exists (String c pre), post.
  - intros (pre & post & ->). induction pre as [|c pre IH].
    + assert (PyStr.startswith needle (needle +:+ post) = true) as E
        by (apply startswith_spec; eauto).
      simpl. destruct (needle +:+ post); simpl; simpl in E; by rewrite E.
    + simpl. by destruct (PyStr.startswith needle (String c (pre +:+ needle +:+ post))).
Qed.

Lemma contains_ci (kw s : string) :
  PyStr.contains (PyStr.lower kw) (PyStr.lower s) = true ↔ PyStr.ci_substring kw s.
Proof. apply contains_spec. Qed.



(** ** Matcher *)

Lemma search_installed_spec install_apps package_name keyword :
  search_installed install_apps package_name keyword = true ↔
  ∃ ia, ia ∈ install_apps ∧ id_eq (CFBundleIdentifier ia) package_name = true ∧
        PyStr.ci_substring keyword (CFBundleName ia).
Proof.
  induction install_apps as [|ia rest IH]; simpl.
  - split; [done | intros (ia & H & _); by apply elem_of_nil in H].
  - destruct (id_eq (CFBundleIdentifier ia) package_name) eqn:Eid.
    + destruct (PyStr.contains _ _) eqn:Ec.
      * split; [intros _ | done]. exists ia. split; [left|].
        split; [done | by apply contains_ci].
      * rewrite IH. split.
        -- intros (x & Hx & H). exists x. split; [by right | done].
        -- intros (x & Hx & Hid & Hc). apply elem_of_cons in Hx as [->|Hx].
           ++ apply contains_ci in Hc. congruence.
           ++ by exists x.
    + rewrite IH. split.
      * intros (x & Hx & H). exists x. split; [by right | done].
      * intros (x & Hx & Hid & Hc). apply elem_of_cons in Hx as [->|Hx].
        -- congruence.
        -- by exists x.
Qed.

Lemma code_matchb_spec keyword install_apps app :
  code_matchb keyword install_apps app = true ↔ code_match keyword install_apps app.
Proof.
  unfold code_matchb, code_match. rewrite orb_true_iff, search_installed_spec.
  rewrite existsb_exists. split; (intros [(name & Hin & Hc)|H]; [left|by right]).
  - exists name. split; [by apply list_elem_of_In | by apply contains_ci].
  - exists name. split; [by apply list_elem_of_In | by apply contains_ci].
Qed.

Lemma search_apps_loop_filter app_list install_apps keyword matched_apps :
  search_apps_loop app_list install_apps keyword matched_apps =
  matched_apps ++ List.filter (code_matchb keyword install_apps) app_list.
Proof.
  revert matched_apps. induction app_list as [|app rest IH]; intros acc; simpl.
  - by rewrite app_nil_r.
  - unfold code_matchb at 1, package_names.
    destruct (get app "packageName") as [| | |name|names] eqn:Epkg; simpl;
      rewrite ?IH, ?orb_false_r.
    + destruct (search_installed _ _ _); rewrite ?IH; [by rewrite <- app_assoc | done].
    + destruct (search_installed _ _ _); rewrite ?IH; [by rewrite <- app_assoc | done].
    + destruct (search_installed _ _ _); rewrite ?IH; [by rewrite <- app_assoc | done].
    + destruct (PyStr.contains _ _); simpl; rewrite ?IH; [by rewrite <- app_assoc |].
      destruct (search_installed _ _ _); rewrite ?IH; [by rewrite <- app_assoc | done].
    + destruct (existsb _ names); simpl; rewrite ?IH; [by rewrite <- app_assoc |].
      destruct (search_installed _ _ _); rewrite ?IH; [by rewrite <- app_assoc | done].
Qed.

(** What [search_apps] returns: the catalog filtered, in catalog order, by
    the test of the code. *)
Lemma search_apps_filter app_list install_apps keyword :
  search_apps app_list install_apps keyword =
  List.filter (code_matchb keyword install_apps) app_list.
Proof. unfold search_apps. by rewrite search_apps_loop_filter. Qed.

Lemma search_apps_elem app_list install_apps keyword app :
  app ∈ search_apps app_list install_apps keyword ↔
  app ∈ app_list ∧ code_match keyword install_apps app.
Proof.
  rewrite search_apps_filter, !list_elem_of_In, filter_In.
  by rewrite code_matchb_spec.
Qed.

Lemma search_apps_sublist app_list install_apps keyword :
  search_apps app_list install_apps keyword `sublist_of` app_list.
Proof.
  rewrite search_apps_filter. induction app_list as [|app rest IH]; simpl; [done|].
  destruct (code_matchb _ _ _); by constructor.
Qed.

(** For an entry whose [packageName] is one string the test of the code is
    the matcher of the specification. *)
Lemma code_match_single keyword install_apps app name :
  get app "packageName" = VStr name →
  code_match keyword install_apps app ↔ spec_match keyword install_apps app.
Proof.
  intros E. unfold code_match, spec_match, package_names. rewrite E.
  split; (intros [H|H]; [by left | right]).
  - destruct H as (ia & Hin & Hid & Hc). exists ia, name.
    split; [done|]. split; [by left|]. split; [|done].
    destruct (CFBundleIdentifier ia) as [s|]; simpl in Hid; [|done].
    by apply bool_decide_eq_true in Hid as ->.
  - destruct H as (ia & n & Hin & Hn & Hid & Hc). exists ia.
    apply list_elem_of_singleton in Hn as ->. rewrite Hid. simpl.
    split; [done|]. split; [by apply bool_decide_eq_true | done].
Qed.

(** C1. The claim: [search_apps] returns exactly the entries whose keyword
    is in one of the package names or in the display name of an installed
    app whose bundle identifier is the entry's package name. For the entry
    with [packageName = ["com.a"; "com.b"]], the installed app [com.a] named
    [Foo] and the keyword [foo], the specification's matcher holds of the
    entry and [search_apps] returns nothing: the display-name test compares
    the identifier with the whole list. *)
Theorem search_apps_misses_list_entry :
  spec_match "foo" [example_installed] example_list_entry ∧
  search_apps [example_list_entry] [example_installed] "foo" = [] ∧
  search_apps [example_entry] [example_installed] "foo" = [example_entry].
Proof.
  split; [|split; vm_compute; reflexivity].
  right. exists example_installed, "com.a".
  split; [by left|]. split; [by left|]. split; [done|].
  by exists EmptyString, EmptyString.
Qed.

(** ** Compatibility gate *)

Lemma any_equal_spec (v : string) (codes : list string) :
  any_equal v codes = true ↔ v ∈ codes.
Proof.
  induction codes as [|code rest IH]; simpl.
  - split; [done | by intros ?%elem_of_nil].
  - destruct (decide (v = code)) as [->|Hne].
    + split; [intros _; by left | done].
    + rewrite IH. split; [by right|]. by intros [?|?]%elem_of_cons.
Qed.

Lemma truthy_list_iter (l : list string) (v : string) :
  (if truthy (VList l) then any_equal v l else false) = any_equal v l.
Proof. by destruct l. Qed.

(** C2. [check_compatible] never raises on declared allow-lists (each one
    absent or a list of strings) and answers [True] exactly when both lists
    are absent, or the installed version is an element of the version
    list, or the installed sub-version is an element of the sub-version
    list. It is a function of its four arguments alone. *)
Theorem check_compatible_spec (versions subversions : option (list string))
    (app_version_code app_subversion_code : string) :
  ∃ b, check_compatible (allow_list versions) (allow_list subversions)
         app_version_code app_subversion_code = Some b ∧
       (b = true ↔
          (versions = None ∧ subversions = None) ∨
          (∃ l, versions = Some l ∧ app_version_code ∈ l) ∨
          (∃ l, subversions = Some l ∧ app_subversion_code ∈ l)).
Proof.
  destruct versions as [vl|], subversions as [sl|]; unfold check_compatible; simpl.
  - exists (any_equal app_version_code vl || any_equal app_subversion_code sl).
    split.
    + destruct vl as [|v vl'], sl as [|s sl']; simpl; try done.
      * by destruct (decide (app_version_code = v)), (any_equal app_version_code vl').
      * destruct (decide (app_version_code = v)); [done|].
        by destruct (any_equal app_version_code vl').
    + rewrite orb_true_iff, !any_equal_spec. split.
      * intros [H|H]; [right; left | right; right]; eauto.
      * intros [[? _]|[(l & [= <-] & H)|(l & [= <-] & H)]]; [done | by left | by right].
  - exists (any_equal app_version_code vl). split.
    + destruct vl as [|v vl']; simpl; [done|].
      destruct (decide (app_version_code = v)); [done|].
      by destruct (any_equal app_version_code vl').
    + rewrite any_equal_spec. split.
      * intros H. right; left; eauto.
      * intros [[? _]|[(l & [= <-] & H)|(l & ? & _)]]; done.
  - exists (any_equal app_subversion_code sl). split.
    + by destruct sl.
    + rewrite any_equal_spec. split.
      * intros H. right; right; eauto.
      * intros [[_ ?]|[(l & ? & _)|(l & [= <-] & H)]]; done.
  - exists true. split; [done|]. split; [intros _; by left | done].
Qed.

(** ** Bundle scanner *)

Lemma scan_dir_spec fs base_dir lst appList :
  scan_dir fs base_dir lst appList =
  appList ++ omap (λ app, parse_app_info (base_dir +:+ "/" +:+ app)
                            <$> readable_manifest fs base_dir app) lst.
Proof.
  revert appList. induction lst as [|app rest IH]; intros acc; simpl.
  - by rewrite app_nil_r.
  - unfold readable_manifest at 1.
    destruct (fs_exists fs (info_plist_path base_dir app)); simpl; [|apply IH].
    destruct (fs_load_plist fs (info_plist_path base_dir app)); simpl; [|apply IH].
    by rewrite IH, <- app_assoc.
Qed.

Lemma scan_roots_spec fs roots appList :
  (∀ base_dir, base_dir ∈ roots → fs_exists fs base_dir = true →
               is_Some (fs_listdir fs base_dir)) →
  scan_roots fs roots appList =
  Some (appList ++ concat (records_of_root fs <$> roots)).
Proof.
  revert appList. induction roots as [|base_dir rest IH]; intros acc Hls; simpl.
  - by rewrite app_nil_r.
  - assert (∀ b, b ∈ rest → fs_exists fs b = true → is_Some (fs_listdir fs b)) as Hrest
      by (intros b Hb; apply Hls; by right).
    unfold records_of_root at 1.
    destruct (fs_exists fs base_dir) eqn:Eex; simpl.
    + destruct (Hls base_dir) as [lst Elst]; [by left | done |].
      rewrite Elst. simpl. rewrite IH by done. by rewrite scan_dir_spec, <- app_assoc.
    + by apply IH.
Qed.

Lemma records_of_root_name fs base_dir r :
  r ∈ records_of_root fs base_dir → CFBundleName r = CFBundleExecutable r.
Proof.
  unfold records_of_root. destruct (fs_exists fs base_dir); [|by intros ?%elem_of_nil].
  intros (app & _ & H)%list_elem_of_omap.
  destruct (readable_manifest fs base_dir app); simpl in H; [|done].
  by injection H as <-.
Qed.

Lemma scan_roots_name fs roots appList l r :
  (∀ x, x ∈ appList → CFBundleName x = CFBundleExecutable x) →
  scan_roots fs roots appList = Some l → r ∈ l →
  CFBundleName r = CFBundleExecutable r.
Proof.
  revert appList. induction roots as [|base_dir rest IH]; intros acc Hacc; simpl.
  - intros [= <-]. apply Hacc.
  - destruct (fs_exists fs base_dir) eqn:Eex; simpl; [|by apply IH].
    destruct (fs_listdir fs base_dir) as [lst|] eqn:Elst; [|done].
    apply IH. intros x. rewrite scan_dir_spec. intros [Hx|Hx]%elem_of_app.
    + by apply Hacc.
    + apply (records_of_root_name fs base_dir). unfold records_of_root.
      by rewrite Eex, Elst.
Qed.

(** C5. When the roots that exist can be listed, [scan_apps] returns, for
    [/Applications] and then [/Applications/Setapp], one record per
    directory entry whose [Contents/Info.plist] exists and loads, in
    listing order; an entry whose manifest is missing or fails to load
    contributes nothing and does not stop the scan. *)
Theorem scan_apps_spec (fs : filesystem) :
  (∀ base_dir, base_dir ∈ base_dirs → fs_exists fs base_dir = true →
               is_Some (fs_listdir fs base_dir)) →
  scan_apps fs = Some (records_of_root fs "/Applications" ++
                       records_of_root fs "/Applications/Setapp") ∧
  (∀ base_dir lst, fs_exists fs base_dir = true → fs_listdir fs base_dir = Some lst →
     length (records_of_root fs base_dir) =
     length (List.filter (λ app, bool_decide (is_Some (readable_manifest fs base_dir app)))
               lst) ∧
     (∀ r, r ∈ records_of_root fs base_dir ↔
           ∃ app app_info, app ∈ lst ∧
             fs_exists fs (info_plist_path base_dir app) = true ∧
             fs_load_plist fs (info_plist_path base_dir app) = Some app_info ∧
             r = parse_app_info (base_dir +:+ "/" +:+ app) app_info)).
Proof.
  intros Hls. split.
  - unfold scan_apps. rewrite scan_roots_spec by done. simpl. by rewrite app_nil_r.
  - intros base_dir lst Eex Elst. unfold records_of_root. rewrite Eex, Elst. simpl.
    split.
    + clear Elst. induction lst as [|app rest IH]; [done|].
      cbn [omap list_omap List.filter].
      destruct (readable_manifest fs base_dir app) as [p|]; cbn [fmap option_fmap option_map].
      * rewrite bool_decide_true by eauto. cbn [length]. by rewrite IH.
      * rewrite bool_decide_false by (by intros [? ?]). exact IH.
    + intros r. rewrite list_elem_of_omap. unfold readable_manifest. split.
      * intros (app & Hin & H). exists app.
        destruct (fs_exists fs (info_plist_path base_dir app)); [|done].
        destruct (fs_load_plist fs (info_plist_path base_dir app)) as [p|]; [|done].
        exists p. simpl in H. by injection H as <-.
      * intros (app & p & Hin & E1 & E2 & ->). exists app. by rewrite E1, E2.
Qed.

Lemma scan_apps_spec_witness :
  scan_apps example_fs =
    Some [parse_app_info "/Applications/Foo.app" {[ "CFBundleExecutable" := "Foo" ]}].
Proof.
  destruct (scan_apps_spec example_fs) as [H _].
  - intros base_dir Hin Hex. vm_compute in Hex.
    repeat (apply elem_of_cons in Hin as [->|Hin]; [vm_compute in Hex |]);
      try discriminate; [by eexists | by apply elem_of_nil in Hin].
  - rewrite H. vm_compute. reflexivity.
Defined.

(** C8. Every record of [parse_app_info] has [CFBundleName] equal to
    [CFBundleExecutable], both read from the manifest key
    [CFBundleExecutable]; the manifest key [CFBundleName] has no influence
    on the record; and every record [scan_apps] returns has the two fields
    equal. *)
Theorem parse_app_info_name_is_executable :
  (∀ base (app_info : plist),
     CFBundleName (parse_app_info base app_info) =
       CFBundleExecutable (parse_app_info base app_info) ∧
     CFBundleName (parse_app_info base app_info) =
       default EmptyString (app_info !! "CFBundleExecutable")) ∧
  (∀ base (app_info : plist) v,
     parse_app_info base (<["CFBundleName" := v]> app_info) =
       parse_app_info base app_info) ∧
  (∀ fs l r, scan_apps fs = Some l → r ∈ l → CFBundleName r = CFBundleExecutable r).
Proof.
  split; [done|]. split.
  - intros base app_info v. unfold parse_app_info.
    by rewrite !lookup_insert_ne by done.
  - intros fs l r. unfold scan_apps. apply scan_roots_name.
    by intros x ?%elem_of_nil.
Qed.

Lemma parse_app_info_name_is_executable_witness :
  CFBundleName
    (parse_app_info "/Applications/Foo.app" {[ "CFBundleExecutable" := "Foo" ]}) =
  CFBundleExecutable
    (parse_app_info "/Applications/Foo.app" {[ "CFBundleExecutable" := "Foo" ]}).
Proof.
  apply (proj2 (proj2 parse_app_info_name_is_executable) example_fs
           [parse_app_info "/Applications/Foo.app" {[ "CFBundleExecutable" := "Foo" ]}]).
  - vm_compute. reflexivity.
  - apply list_elem_of_here.
Defined.

(** ** Programs that do not look at exit statuses *)

Lemma sb_bind {A B : Type} (p : prog A) (f : A → prog B) :
  status_blind p → (∀ a, status_blind (f a)) → status_blind (bind p f).
Proof.
  intros Hp Hf. induction Hp as [a| |c k Hk Hp IH|X e k He Hk IH]; simpl.
  - apply Hf.
  - constructor.
  - apply sb_run; [|exact IH]. intros z. by rewrite Hk.
  - apply sb_vis; [done|]. intros x. apply IH.
Qed.

Lemma sb_for_each {T : Type} (l : list T) (body : T → prog unit) :
  (∀ x, status_blind (body x)) → status_blind (for_each l body).
Proof.
  intros Hb. induction l as [|x rest IH]; simpl; [constructor|].
  apply sb_bind; [apply Hb | intros _; exact IH].
Qed.

Lemma sb_map_prog {T U : Type} (f : T → prog U) (l : list T) :
  (∀ x, status_blind (f x)) → status_blind (map_prog f l).
Proof.
  intros Hf. induction l as [|x rest IH]; simpl; [constructor|].
  apply sb_bind; [apply Hf|]. intros y.
  apply sb_bind; [exact IH|]. intros ys. constructor.
Qed.

Lemma sb_when b p : status_blind p → status_blind (when b p).
Proof. intros H. unfold when. by destruct b; [|constructor]. Qed.

Create HintDb blind.

Ltac blind :=
  repeat (intros; cbv zeta; cbn [mbind prog_bind mret prog_ret bind];
          first
            [ solve [auto with blind nocore]
            | apply sb_when
            | apply sb_ret
            | apply sb_throw
            | apply sb_run; [reflexivity|]
            | apply sb_vis; [reflexivity|]
            | apply sb_bind
            | apply sb_for_each
            | apply sb_map_prog
            | match goal with
              | |- status_blind (if ?b then _ else _) => destruct b
              | |- status_blind (match ?x with _ => _ end) => destruct x
              end ]).

Lemma sb_run_cmd c : status_blind (run c).
Proof. unfold run. blind. Qed.

Lemma sb_sh s : status_blind (sh s).
Proof. apply sb_run_cmd. Qed.

Lemma sb_print s : status_blind (print s).
Proof. unfold print. blind. Qed.

Lemma sb_raise_if_none {A : Type} (o : option A) : status_blind (raise_if_none o).
Proof. unfold raise_if_none. blind. Qed.

Lemma sb_require_str v : status_blind (require_str v).
Proof. unfold require_str. blind. Qed.

Lemma sb_input prompt : status_blind (input prompt).
Proof. unfold input. apply sb_vis; [done|]. intros x. apply sb_raise_if_none. Qed.

#[local] Hint Resolve sb_run_cmd sb_sh sb_print sb_raise_if_none sb_require_str
  sb_input : blind.

Lemma sb_read_input prompt : status_blind (read_input prompt).
Proof. unfold read_input. blind. Qed.

Lemma sb_path_exists p : status_blind (path_exists p).
Proof. unfold path_exists. blind. Qed.

Lemma sb_load_plist p : status_blind (load_plist p).
Proof. unfold load_plist. blind. Qed.

#[local] Hint Resolve sb_read_input sb_path_exists sb_load_plist : blind.

Lemma sb_getAppMainExecutable app_base : status_blind (getAppMainExecutable app_base).
Proof. unfold getAppMainExecutable. blind. Qed.

Lemma sb_getBundleID app_base : status_blind (getBundleID app_base).
Proof. unfold getBundleID. blind. Qed.

Lemma sb_handle_keygen rt ident : status_blind (handle_keygen rt ident).
Proof. unfold handle_keygen. blind. Qed.

Lemma handle_helper_blind app_base target_helper component_apps SMExtra bridge_path :
  status_blind (handle_helper app_base target_helper component_apps SMExtra bridge_path).
Proof. unfold handle_helper. blind. Qed.

#[local] Hint Resolve sb_getAppMainExecutable sb_getBundleID sb_handle_keygen
  handle_helper_blind : blind.

Lemma sb_adobe_patch : status_blind adobe_patch.
Proof. unfold adobe_patch. blind. Qed.

Lemma sb_backup_phase dest backup : status_blind (backup_phase dest backup).
Proof. unfold backup_phase. blind. Qed.

Lemma sb_desire_apps dest abl componentApp :
  status_blind (desire_apps dest abl componentApp).
Proof. unfold desire_apps. blind. Qed.

#[local] Hint Resolve sb_adobe_patch sb_backup_phase sb_desire_apps : blind.

Lemma sb_inject_phase rt app abl bridge_file dest backup :
  status_blind (inject_phase rt app abl bridge_file dest backup).
Proof. unfold inject_phase. blind. Qed.

Lemma sb_sign_phase rt app abl dest : status_blind (sign_phase rt app abl dest).
Proof. unfold sign_phase. blind. Qed.

Lemma sb_helper_phase app abl bridge_file : status_blind (helper_phase app abl bridge_file).
Proof. unfold helper_phase. blind. Qed.

Lemma sb_tcc_phase app abl ident : status_blind (tcc_phase app abl ident).
Proof. unfold tcc_phase. blind. Qed.

#[local] Hint Resolve sb_inject_phase sb_sign_phase sb_helper_phase sb_tcc_phase : blind.

Lemma sequencer_blind rt app local_app app_base_locate bridge_file inject_file :
  status_blind (sequencer rt app local_app app_base_locate bridge_file inject_file).
Proof. unfold sequencer. blind. Qed.

#[local] Hint Resolve sequencer_blind : blind.

Lemma process_app_blind rt base_public_config install_apps app :
  status_blind (process_app rt base_public_config install_apps app).
Proof. unfold process_app. blind. Qed.

Lemma sb_keyword_mode matched_apps : status_blind (keyword_mode matched_apps).
Proof. unfold keyword_mode. blind. Qed.

Lemma sb_browse_mode app_list app_Lst : status_blind (browse_mode app_list app_Lst).
Proof.
  revert app_Lst. induction app_list as [|app rest IH]; intros acc; simpl; blind.
Qed.

#[local] Hint Resolve process_app_blind sb_keyword_mode sb_browse_mode : blind.

Lemma main_blind rt base_public_config app_list install_apps :
  status_blind (main rt base_public_config app_list install_apps).
Proof. unfold main. blind. Qed.

Lemma interp_status_blind {S A : Type} (h1 h2 : handler S) (p : prog A) :
  differ_only_in_status h1 h2 → status_blind p →
  ∀ s, interp h1 p s = interp h2 p s.
Proof.
  intros [Hst Hans] Hp.
  induction Hp as [a| |c k Hk Hp IH|X e k He Hk IH]; intros s; simpl; try done.
  - specialize (Hst _ (Run c) s).
    destruct (h1 Z (Run c) s) as [s1 z1], (h2 Z (Run c) s) as [s2 z2].
    simpl in Hst. subst s2. by rewrite (Hk z1), (Hk z2), IH.
  - specialize (Hst _ e s). specialize (Hans _ e s He).
    destruct (h1 X e s) as [s1 x1], (h2 X e s) as [s2 x2].
    simpl in Hst, Hans. subst s2 x2. by rewrite IH.
Qed.

(** C3. Take two runs that differ only in the exit statuses the commands
    report. [main], the sequencer for an approved app and [handle_helper]
    then issue the same events (commands, prompts, messages, file-system
    calls) in the same order, leave the same world and end the same way: no
    command failure aborts, is reported or is branched on. *)
Theorem sequencer_ignores_exit_status {S : Type} (h1 h2 : handler S) :
  differ_only_in_status h1 h2 →
  (∀ rt base_public_config app_list install_apps s,
     interp h1 (main rt base_public_config app_list install_apps) s =
     interp h2 (main rt base_public_config app_list install_apps) s) ∧
  (∀ rt app local_app app_base_locate bridge_file inject_file s,
     interp h1 (sequencer rt app local_app app_base_locate bridge_file inject_file) s =
     interp h2 (sequencer rt app local_app app_base_locate bridge_file inject_file) s) ∧
  (∀ app_base target_helper component_apps SMExtra bridge_path s,
     interp h1 (handle_helper app_base target_helper component_apps SMExtra bridge_path) s =
     interp h2 (handle_helper app_base target_helper component_apps SMExtra bridge_path) s).
Proof.
  intros Hd. repeat split; intros; apply interp_status_blind; try done.
  - apply main_blind.
  - apply sequencer_blind.
  - apply handle_helper_blind.
Qed.

Lemma sequencer_ignores_exit_status_witness :
  interp (example_handler 0)
    (main example_rt ∅ [example_catalog_entry] [example_installed]) example_world =
  interp (example_handler 1)
    (main example_rt ∅ [example_catalog_entry] [example_installed]) example_world.
Proof.
  apply (sequencer_ignores_exit_status (example_handler 0) (example_handler 1)).
  split; intros X e s; [|intros He]; destruct e; simpl in *; try done;
    by destruct (files s !! p), (typed s).
Defined.

(** ** Backup and injection *)

Lemma interp_bind {S A B : Type} (h : handler S) (p : prog A) (f : A → prog B) s :
  interp h (bind p f) s =
  let '(tr1, s1, r1) := interp h p s in
  match r1 with
  | Done a => let '(tr2, s2, r2) := interp h (f a) s1 in (tr1 ++ tr2, s2, r2)
  | Raised => (tr1, s1, Raised)
  end.
Proof.
  revert s. induction p as [a| |X e k IH]; intros s; simpl.
  - by destruct (interp h (f a) s) as [[tr2 s2] r2].
  - done.
  - destruct (h X e s) as [s' x]. rewrite IH.
    destruct (interp h (k x) s') as [[tr1 s1] [a|]]; [|done].
    by destruct (interp h (f a) s1) as [[tr2 s2] r2].
Qed.







(** ** Expansion of the work list *)

Lemma expand_list (app : entry) (names : list string) :
  app !! "packageName" = Some (VList names) →
  expand app = Some ((λ name, <["packageName" := VStr name]> app) <$> names).
Proof. intros E. unfold expand. by rewrite E. Qed.

Lemma browse_mode_fixed {S : Type} (h : handler S) (present : bool) app_list :
  (∀ s, h _ (PathExists "/Users/qiuchenly") s = (s, present)) →
  ∀ expansions acc s,
    mapM expand app_list = Some expansions →
    ∃ tr, interp h (browse_mode app_list acc) s =
          (tr, s, Done (acc ++ concat (omap (λ app, if kept_in_browse present app
                                                     then expand app else None)
                                            app_list))).
Proof.
  intros Hh. induction app_list as [|app rest IH]; intros expansions acc s Hm.
  - simpl. rewrite app_nil_r. by eexists.
  - cbn in Hm. destruct (expand app) as [items|] eqn:Eapp; [|done].
    cbn in Hm. destruct (mapM expand rest) as [ls|] eqn:Erest; [|done].
    cbn [browse_mode]. rewrite Eapp. cbn [raise_if_none mbind prog_bind bind omap list_omap].
    unfold kept_in_browse at 1.
    destruct (truthy (get app "forQiuChenly")); cbn.
    + rewrite Hh. destruct present; cbn.
      * destruct (IH ls (acc ++ items) s eq_refl) as [tr ->].
        rewrite Eapp. cbn. rewrite <- app_assoc. by eexists.
      * destruct (IH ls acc s eq_refl) as [tr ->]. by eexists.
    + destruct (IH ls (acc ++ items) s eq_refl) as [tr ->].
      rewrite Eapp. cbn. rewrite <- app_assoc. by eexists.
Qed.

Lemma commands_of_app (tr1 tr2 : list logged) :
  commands_of (tr1 ++ tr2) = commands_of tr1 ++ commands_of tr2.
Proof. apply omap_app. Qed.

Lemma for_each_print_world status ext plists dirs {T : Type} (l : list T)
    (body : T → prog unit) w :
  (∀ x, ∃ msg, body x = print msg) →
  ∃ tr, interp (world_handler status ext plists dirs) (for_each l body) w = (tr, w, Done tt)
        ∧ commands_of tr = [].
Proof.
  intros Hb. induction l as [|x rest IH]; simpl; [by eexists|].
  destruct (Hb x) as [msg ->]. simpl.
  destruct IH as (tr & -> & Htr). by eexists.
Qed.

Lemma select_app_number matched_apps choice n app :
  PyStr.isdigit choice = true → PyStr.int choice = Z.of_nat (S n) →
  matched_apps !! n = Some app →
  select_app matched_apps choice = Selected app.
Proof.
  intros Hd Hv Hn. pose proof (lookup_lt_Some _ _ _ Hn) as Hlt.
  unfold select_app. rewrite Hd, Hv. cbn [negb orb].
  assert ((Z.of_nat (S n) =? 0) = false) as -> by (apply Z.eqb_neq; lia).
  assert ((Z.of_nat (length matched_apps) <? Z.of_nat (S n)) = false) as ->
    by (apply Z.ltb_ge; lia).
  assert (Z.to_nat (Z.of_nat (S n) - 1) = n) as -> by lia.
  by rewrite Hn.
Qed.

(** Keyword mode on an answer that selects an entry: the line is read,
    nothing is run or changed, and the expansion of that entry comes
    back. *)
Lemma keyword_mode_selects status ext plists dirs matched_apps raw rest fs app :
  select_app matched_apps (PyStr.strip raw) = Selected app →
  ∃ tr, interp (world_handler status ext plists dirs) (keyword_mode matched_apps)
          {| files := fs; typed := raw :: rest |} =
        (tr, {| files := fs; typed := rest |},
         match expand app with
         | Some items => Done (Some items)
         | None => Raised
         end) ∧
        commands_of tr = [].
Proof.
  intros Hsel. unfold keyword_mode, mbind, prog_bind, mret, prog_ret, print.
  cbn [bind interp world_handler].
  rewrite interp_bind.
  edestruct (for_each_print_world status ext plists dirs
               (imap (λ i app, (S i, app)) matched_apps)) as (tr1 & -> & Htr1).
  { intros [i a]. unfold print. by eexists. }
  simpl. rewrite Hsel.
  destruct (expand app) as [items|]; simpl; (eexists; split; [done|]);
    match goal with
    | |- commands_of (?x :: tr1 ++ ?l) = _ =>
        change (commands_of ([x] ++ tr1 ++ l) = [])
    end;
    by rewrite !commands_of_app, Htr1.
Qed.

(** C9, the claim refuted as stated: in browse-all mode the entry with a
    string [packageName] and [forQiuChenly] set yields no work item on a
    machine without [/Users/qiuchenly], although on its own it expands to
    one work item. *)
Lemma browse_mode_skips_private_entry :
  expand example_private_entry = Some [example_private_entry] ∧
  interp (fixed_handler false) (browse_mode [example_private_entry] []) tt =
    ([log_of (PathExists "/Users/qiuchenly")], tt, Done []).
Proof. split; vm_compute; reflexivity. Qed.

(** C9, amended. A list-valued [packageName] expands to one work item per
    name, in order, each the entry with [packageName] replaced by that name
    and every other key as it was; any other [packageName] yields the entry
    itself as the one work item. Keyword mode, on an ASCII answer of at
    most 4300 characters that is the number [n+1] of a listed entry, reads
    that line, runs nothing, and hands the expansion of the entry at
    position [n] to the sequencer (it raises when that entry has no
    [packageName]). Browse-all mode hands over, in catalog
    order, the expansions of the entries its [forQiuChenly] guard does not
    skip (an entry with [forQiuChenly] set is skipped when
    [/Users/qiuchenly] does not exist). *)
Theorem work_list_expansion :
  (∀ (app : entry) names,
     app !! "packageName" = Some (VList names) →
     ∃ items, expand app = Some items ∧ length items = length names ∧
       ∀ i name, names !! i = Some name →
         ∃ tmp : entry, items !! i = Some tmp ∧
           tmp !! "packageName" = Some (VStr name) ∧
           ∀ k, k ≠ "packageName" → tmp !! k = app !! k) ∧
  (∀ (app : entry) v,
     app !! "packageName" = Some v → (∀ names, v ≠ VList names) →
     expand app = Some [app]) ∧
  (∀ status ext plists dirs matched_apps raw rest fs n app,
     plain_line raw →
     PyStr.isdigit (PyStr.strip raw) = true →
     PyStr.int (PyStr.strip raw) = Z.of_nat (S n) →
     matched_apps !! n = Some app →
     ∃ tr, interp (world_handler status ext plists dirs) (keyword_mode matched_apps)
             {| files := fs; typed := raw :: rest |} =
           (tr, {| files := fs; typed := rest |},
            match expand app with
            | Some items => Done (Some items)
            | None => Raised
            end) ∧
           commands_of tr = []) ∧
  (∀ S (h : handler S) present app_list expansions s,
     (∀ s, h _ (PathExists "/Users/qiuchenly") s = (s, present)) →
     mapM expand app_list = Some expansions →
     ∃ tr, interp h (browse_mode app_list []) s =
           (tr, s, Done (concat (omap (λ app, if kept_in_browse present app
                                              then expand app else None)
                                      app_list)))).
Proof.
  split; [|split; [|split]].
  - intros app names E. rewrite (expand_list app names E). eexists. split; [done|].
    split; [by rewrite length_fmap|].
    intros i name Hi. eexists. split; [by rewrite list_lookup_fmap, Hi|].
    split; [by rewrite lookup_insert_eq|].
    intros k Hk. by rewrite lookup_insert_ne.
  - intros app v E Hv. unfold expand. rewrite E. destruct v; try done. by destruct (Hv l).
  - intros status ext plists dirs matched_apps raw rest fs n app _ Hd Hv Hn.
    by eapply keyword_mode_selects, select_app_number.
  - intros S h present app_list expansions s Hh Hm.
    by destruct (browse_mode_fixed h present app_list Hh expansions [] s Hm) as [tr ->];
      eexists.
Qed.

Lemma work_list_expansion_witness :
  ∃ items, expand example_list_entry = Some items ∧ length items = 2%nat.
Proof.
  destruct (proj1 work_list_expansion example_list_entry ["com.a"; "com.b"])
    as (items & E & Hlen & _).
  - vm_compute. reflexivity.
  - exists items. split; [exact E | exact Hlen].
Defined.

(** ** Pagination *)

Lemma page_split (S i : Z) :
  0 < S → page_num S i * S + page_idx S i = i - 1 ∧ 0 ≤ page_idx S i < S.
Proof.
  intros HS. unfold page_num, page_idx. split.
  - pose proof (Z.div_mod (i - 1) S). lia.
  - apply Z.mod_pos_bound. lia.
Qed.

Lemma menu_turn_next display am m :
  menu_turn display am m "n" =
  Again {| current_page :=
             next_page (current_page (shown_state display am m))
               (display (app_list am) (installed_apps am) (current_page m) (page_size m)).2;
           page_size := page_size m;
           last_displayed_apps := last_displayed_apps (shown_state display am m) |}.
Proof.
  unfold menu_turn, shown_state.
  by destruct (display _ _ _ _) as [[shown page] total].
Qed.

Lemma menu_turn_prev display am m :
  menu_turn display am m "p" =
  Again {| current_page := prev_page (current_page (shown_state display am m));
           page_size := page_size m;
           last_displayed_apps := last_displayed_apps (shown_state display am m) |}.
Proof.
  unfold menu_turn, shown_state.
  by destruct (display _ _ _ _) as [[shown page] total].
Qed.

(** C7. With a positive page size [S] (the menu uses 20) the 1-based index
    [i] of a list of [N] apps lies on page [(i-1) div S] at offset
    [(i-1) mod S]: page times [S] plus offset is [i-1], the offset is
    within [0, S) and the page within [0, (N-1) div S]. After [n] or [p]
    the current page is the displayed page moved by one, unless that would
    leave [0 .. total_pages-1], in which case it stays: a page within the
    range remains within it. *)
Theorem pagination_spec :
  page_size MenuManager_init = 20 ∧
  (∀ N S i, 0 < S → 1 ≤ i ≤ N →
     page_num S i * S + page_idx S i = i - 1 ∧
     0 ≤ page_idx S i < S ∧
     0 ≤ page_num S i ≤ (N - 1) `div` S) ∧
  (∀ page total_pages, 0 ≤ page ≤ total_pages - 1 →
     0 ≤ next_page page total_pages ≤ total_pages - 1 ∧
     0 ≤ prev_page page ≤ total_pages - 1 ∧
     (page < total_pages - 1 → next_page page total_pages = page + 1) ∧
     (page = total_pages - 1 → next_page page total_pages = page) ∧
     (0 < page → prev_page page = page - 1) ∧
     (page = 0 → prev_page page = page)) ∧
  (∀ display am m,
     ∃ m_next m_prev,
       menu_turn display am m "n" = Again m_next ∧
       menu_turn display am m "p" = Again m_prev ∧
       current_page m_next =
         next_page (current_page (shown_state display am m))
           (display (app_list am) (installed_apps am) (current_page m) (page_size m)).2 ∧
       current_page m_prev = prev_page (current_page (shown_state display am m))).
Proof.
  split; [done|]. split; [|split].
  - intros N S i HS Hi. destruct (page_split S i HS) as [H1 H2].
    split; [done|]. split; [done|]. unfold page_num. split.
    + apply Z.div_pos; lia.
    + apply Z.div_le_mono; lia.
  - intros page total Hp. unfold next_page, prev_page.
    destruct (page <? total - 1) eqn:E1, (0 <? page) eqn:E2; lia.
  - intros display am m. eexists _, _.
    split; [apply menu_turn_next|]. split; [apply menu_turn_prev|]. done.
Qed.

Lemma pagination_spec_witness :
  page_num 20 41 = 2 ∧ page_idx 20 41 = 0 ∧
  0 ≤ next_page 2 3 ≤ 3 - 1 ∧ next_page 2 3 = 2.
Proof.
  destruct pagination_spec as (_ & Hidx & Hnav & _).
  destruct (Hidx 45 20 41) as (H1 & H2 & H3); [lia | lia |].
  destruct (Hnav 2 3) as (H4 & _ & _ & H5 & _); [lia|].
  split; [vm_compute; reflexivity|]. split; [vm_compute; reflexivity|].
  split; [exact H4 | apply H5; lia].
Defined.

(** ** Invalid answers at the prompts *)

Lemma menu_turn_unknown display am m choice :
  unknown_choice choice → menu_turn display am m choice = Again (shown_state display am m).
Proof.
  intros [Hnot Hdig]. unfold menu_turn, shown_state.
  destruct (display _ _ _ _) as [[shown page] total].
  repeat (destruct (decide _) as [->|_]; [exfalso; apply Hnot; set_solver|]).
  by rewrite Hdig.
Qed.

Lemma menu_turn_out_of_range display am m choice :
  PyStr.isdigit choice = true →
  choice ∉ ["1"; "2"; "3"; "4"; "5"] →
  PyStr.int choice < 1 ∨
    Z.of_nat (length (get_installed_supported_apps am)) < PyStr.int choice →
  menu_turn display am m choice = Again (shown_state display am m).
Proof.
  intros Hdig Hmenu Hrange. unfold menu_turn, shown_state.
  destruct (display _ _ _ _) as [[shown page] total].
  repeat (destruct (decide _) as [->|_]; [discriminate Hdig|]).
  rewrite Hdig. unfold menu_digits. rewrite bool_decide_false by done.
  destruct (_ && _)%bool eqn:E; [|done].
  apply andb_true_iff in E as [E1 E2]. simpl in *. lia.
Qed.

Lemma select_loop_invalid matched_apps raw rest app_Lst selected :
  (size selected < length matched_apps)%nat →
  picked matched_apps (PyStr.strip raw) = None →
  PyStr.strip raw ≠ "0" →
  PyStr.strip raw ≠ EmptyString ∨ app_Lst = [] →
  select_loop matched_apps (raw :: rest) app_Lst selected =
  select_loop matched_apps rest app_Lst selected.
Proof.
  intros Hsz Hp H0 He. cbn [select_loop].
  destruct (size selected <? length matched_apps)%nat eqn:E;
    [|apply Nat.ltb_ge in E; lia].
  cbn [negb]. rewrite decide_False by done. rewrite Hp.
  destruct (decide (PyStr.strip raw = EmptyString)) as [Hs|Hs]; [|by destruct rest].
  destruct He as [?| ->]; [done | by destruct rest].
Qed.

Lemma select_app_invalid matched_apps choice :
  PyStr.isdigit choice = false ∨ PyStr.int choice = 0 ∨
    Z.of_nat (length matched_apps) < PyStr.int choice →
  select_app matched_apps choice = Exited.
Proof.
  intros H. unfold select_app.
  destruct (_ || _)%bool eqn:E; [done|].
  apply orb_false_iff in E as [E E3]. apply orb_false_iff in E as [E1 E2].
  apply negb_false_iff in E1. simpl in *. destruct H as [H|[H|H]]; [congruence|lia|lia].
Qed.

Lemma keyword_mode_exits status ext plists dirs matched_apps raw rest fs :
  select_app matched_apps (PyStr.strip raw) = Exited →
  ∃ tr, interp (world_handler status ext plists dirs) (keyword_mode matched_apps)
          {| files := fs; typed := raw :: rest |} =
        (tr, {| files := fs; typed := rest |}, Done None) ∧
        commands_of tr = [] ∧
        last tr = Some (log_of (Print "已退出程序。")).
Proof.
  intros Hsel. unfold keyword_mode, mbind, prog_bind, mret, prog_ret, print.
  cbn [bind interp world_handler].
  rewrite interp_bind.
  edestruct (for_each_print_world status ext plists dirs
               (imap (λ i app, (S i, app)) matched_apps)) as (tr1 & -> & Htr1).
  { intros [i app]. unfold print. by eexists. }
  simpl. rewrite Hsel. simpl. eexists. split; [done|].
  split.
  - match goal with
    | |- commands_of (?x :: tr1 ++ ?l) = _ =>
        change (commands_of ([x] ++ tr1 ++ l) = [])
    end.
    by rewrite !commands_of_app, Htr1.
  - match goal with
    | |- last (?x :: tr1 ++ [?a; ?b; ?c]) = _ =>
        replace (x :: tr1 ++ [a; b; c]) with ((x :: tr1 ++ [a; b]) ++ [c])
          by (simpl; by rewrite <- app_assoc)
    end.
    apply last_snoc.
Qed.

(** C4, the claim refuted as stated: at the selection prompt of [main] the
    answer [abc] is not a number; the program prints its exit message and
    ends, the next typed line is never read. *)
Lemma main_exits_on_invalid_selection :
  let '(tr, w, r) :=
    interp (example_handler 0)
      (main example_rt ∅ [example_catalog_entry] [example_installed])
      {| files := ∅; typed := ["com"; "abc"; "1"] |} in
  PyStr.isdigit "abc" = false ∧ r = Done tt ∧ typed w = ["1"] ∧
  commands_of tr = [] ∧ last tr = Some (log_of (Print "已退出程序。")).
Proof. vm_compute. repeat split. Qed.

(** C4, amended. For answers that are ASCII lines (of at most 4300
    characters where a number is read), the prompts of [MenuManager] ask
    again on an invalid answer: the main menu on an answer that is neither
    a navigation key nor a number, or that is a number other than 1 to 5
    outside [1 .. number of installed supported apps]; the app-number
    prompt of [handle_app_search] on an answer that is not [0], not a
    number in range and not an empty line after a selection. The selection
    prompt of [main] does not ask again: on an answer that is not a number
    in [1 .. number of matches] it prints the exit message and returns
    without running a command. *)
Theorem invalid_input_handling :
  (∀ display am m choice rest,
     is_ascii choice = true →
     unknown_choice choice ∨
     (PyStr.isdigit choice = true ∧ (choice ∉ ["1"; "2"; "3"; "4"; "5"]) ∧
      (PyStr.int choice < 1 ∨
       Z.of_nat (length (get_installed_supported_apps am)) < PyStr.int choice)) →
     menu_turn display am m choice = Again (shown_state display am m) ∧
     show_main_menu display (Some am) m (choice :: rest) =
       show_main_menu display (Some am) (shown_state display am m) rest) ∧
  (∀ matched_apps raw rest app_Lst selected,
     plain_line raw →
     (size selected < length matched_apps)%nat →
     picked matched_apps (PyStr.strip raw) = None →
     PyStr.strip raw ≠ "0" →
     PyStr.strip raw ≠ EmptyString ∨ app_Lst = [] →
     select_loop matched_apps (raw :: rest) app_Lst selected =
       select_loop matched_apps rest app_Lst selected) ∧
  (∀ status ext plists dirs matched_apps raw rest fs,
     plain_line raw →
     PyStr.isdigit (PyStr.strip raw) = false ∨ PyStr.int (PyStr.strip raw) = 0 ∨
       Z.of_nat (length matched_apps) < PyStr.int (PyStr.strip raw) →
     ∃ tr, interp (world_handler status ext plists dirs) (keyword_mode matched_apps)
             {| files := fs; typed := raw :: rest |} =
           (tr, {| files := fs; typed := rest |}, Done None) ∧
           commands_of tr = [] ∧
           last tr = Some (log_of (Print "已退出程序。"))).
Proof.
  split; [|split].
  - intros display am m choice rest _ H.
    assert (menu_turn display am m choice = Again (shown_state display am m)) as E.
    { destruct H as [H|(H1 & H2 & H3)];
        [by apply menu_turn_unknown | by apply menu_turn_out_of_range]. }
    split; [exact E|]. cbn [show_main_menu]. by rewrite E.
  - intros matched_apps raw rest app_Lst selected _. apply select_loop_invalid.
  - intros status ext plists dirs matched_apps raw rest fs _ H.
    by apply keyword_mode_exits, select_app_invalid.
Qed.

Lemma invalid_input_handling_witness :
  show_main_menu example_display (Some example_manager) MenuManager_init ["x"; "q"] =
  show_main_menu example_display (Some example_manager)
    (shown_state example_display example_manager MenuManager_init) ["q"].
Proof.
  apply (proj1 invalid_input_handling example_display example_manager
           MenuManager_init "x" ["q"]).
  - reflexivity.
  - left. split; [|vm_compute; reflexivity].
    intros H. repeat (apply elem_of_cons in H as [H|H]; [discriminate H|]).
    by apply elem_of_nil in H.
Defined.

(** ** Selection in [handle_app_search] *)

Lemma first_picks_spec (picks seen : list nat) :
  NoDup (first_picks picks seen) ∧
  ∀ i, i ∈ first_picks picks seen → (i ∉ seen) ∧ i ∈ picks.
Proof.
  revert seen. induction picks as [|p rest IH]; intros seen; simpl.
  - split; [constructor | by intros i ?%elem_of_nil].
  - destruct (decide (p ∈ seen)) as [Hin|Hnin].
    + destruct (IH seen) as [Hnd Hel]. split; [done|].
      intros i Hi. destruct (Hel i Hi). split; [done | by right].
    + destruct (IH (p :: seen)) as [Hnd Hel]. split.
      * constructor; [|done]. intros Hp. destruct (Hel p Hp) as [Hn _].
        apply Hn. by left.
      * intros i [->|Hi]%elem_of_cons; [split; [done | by left]|].
        destruct (Hel i Hi) as [Hn Hr]. split; [|by right].
        intros Hs. apply Hn. by right.
Qed.

Lemma picked_lt matched_apps choice index :
  picked matched_apps choice = Some index → (index < length matched_apps)%nat.
Proof.
  unfold picked. destruct (_ && _)%bool eqn:E; [|done].
  intros [= <-]. apply andb_true_iff in E as [E E3].
  apply andb_true_iff in E as [_ E2]. lia.
Qed.

Lemma picks_of_cons matched_apps raw rest :
  picks_of matched_apps (raw :: rest) =
  match picked matched_apps (PyStr.strip raw) with
  | Some i => i :: picks_of matched_apps rest
  | None => picks_of matched_apps rest
  end.
Proof. reflexivity. Qed.

Lemma picks_of_nil lines : picks_of [] lines = [].
Proof.
  induction lines as [|l rest IH]; [done|]. rewrite picks_of_cons, IH.
  destruct (picked [] (PyStr.strip l)) as [i|] eqn:E; [|done].
  apply picked_lt in E. simpl in E. lia.
Qed.

Lemma picks_of_lt matched_apps lines i :
  i ∈ picks_of matched_apps lines → (i < length matched_apps)%nat.
Proof.
  unfold picks_of. rewrite list_elem_of_omap. intros (line & _ & E).
  by eapply picked_lt.
Qed.

Lemma apps_at_cons matched_apps i rest app :
  matched_apps !! i = Some app →
  apps_at matched_apps (i :: rest) = app :: apps_at matched_apps rest.
Proof. intros E. unfold apps_at. cbn [omap list_omap]. by rewrite E. Qed.

Lemma apps_at_lookup matched_apps idxs :
  (∀ i, i ∈ idxs → (i < length matched_apps)%nat) →
  Forall2 (λ i app, matched_apps !! i = Some app) idxs (apps_at matched_apps idxs).
Proof.
  induction idxs as [|i rest IH]; intros H; [constructor|].
  unfold apps_at. cbn [omap list_omap].
  destruct (lookup_lt_is_Some_2 matched_apps i) as [app E]; [apply H; by left|].
  rewrite E. constructor; [done|]. apply IH. intros j Hj. apply H. by right.
Qed.

Lemma lookups_NoDup (matched_apps : list entry) (idxs : list nat) (res : list entry) :
  NoDup matched_apps → NoDup idxs →
  Forall2 (λ i app, matched_apps !! i = Some app) idxs res → NoDup res.
Proof.
  intros Hm Hi HF. induction HF as [|i app idxs res Hl HF IH]; [constructor|].
  apply NoDup_cons in Hi as [Hni Hi]. constructor; [|by apply IH].
  intros Hin. apply list_elem_of_lookup in Hin as [j Hj].
  destruct (Forall2_lookup_r _ _ _ _ _ HF Hj) as (i' & Hi' & Hl').
  assert (i = i') as -> by exact (NoDup_lookup _ _ _ _ Hm Hl Hl').
  apply Hni. by eapply list_elem_of_lookup_2.
Qed.

Lemma tracks_add matched_apps selected seen index :
  tracks matched_apps selected seen → index ∉ selected →
  (size selected < length matched_apps)%nat →
  tracks matched_apps ({[index]} ∪ selected) (index :: seen).
Proof.
  intros (Hmem & Hsize & Hle) Hnin Hlt. split; [|split].
  - intros i. rewrite elem_of_union, elem_of_singleton, elem_of_cons, Hmem. done.
  - rewrite size_union.
    + rewrite size_singleton. simpl. lia.
    + apply elem_of_disjoint. intros x ->%elem_of_singleton. exact Hnin.
  - simpl. lia.
Qed.

Lemma stays_open_keeps matched_apps lines :
  keeps_selecting matched_apps lines ↔ stays_open matched_apps [] [] lines.
Proof.
  unfold keeps_selecting, stays_open, chosen. split; intros [H0 He]; (split; [done|]).
  - intros pre line post E Hl. split; [done|]. by eapply He.
  - intros pre line post E Hl. by eapply He.
Qed.

(** The lines after the first of an open session keep it open, in the
    state the first line leads to. *)
Lemma stays_open_next matched_apps app_Lst seen raw rest :
  stays_open matched_apps app_Lst seen (raw :: rest) →
  PyStr.strip raw ≠ "0" ∧
  (PyStr.strip raw = EmptyString → app_Lst = []) ∧
  match picked matched_apps (PyStr.strip raw) with
  | Some index =>
      if decide (index ∈ seen) then stays_open matched_apps app_Lst seen rest
      else ∀ app, stays_open matched_apps (app_Lst ++ [app]) (index :: seen) rest
  | None => stays_open matched_apps app_Lst seen rest
  end.
Proof.
  intros [H0 He]. apply Forall_cons in H0 as [Hraw H0].
  split; [done|]. split.
  { intros Hl. by destruct (He [] raw rest eq_refl Hl). }
  assert (∀ pre line post, rest = pre ++ line :: post →
            PyStr.strip line = EmptyString →
            app_Lst = [] ∧ first_picks (picks_of matched_apps (raw :: pre)) seen = [])
    as He'.
  { intros pre line post -> Hl. by apply (He (raw :: pre) line post). }
  destruct (picked matched_apps (PyStr.strip raw)) as [index|] eqn:Ep.
  - destruct (decide (index ∈ seen)) as [Hin|Hnin].
    + split; [done|]. intros pre line post E Hl.
      destruct (He' pre line post E Hl) as [Ha Hf]. split; [done|].
      rewrite picks_of_cons, Ep in Hf. cbn [first_picks] in Hf.
      by rewrite decide_True in Hf.
    + intros app. split; [done|]. intros pre line post E Hl.
      destruct (He' pre line post E Hl) as [_ Hf].
      rewrite picks_of_cons, Ep in Hf. cbn [first_picks] in Hf.
      by rewrite decide_False in Hf.
  - split; [done|]. intros pre line post E Hl.
    destruct (He' pre line post E Hl) as [Ha Hf]. split; [done|].
    by rewrite picks_of_cons, Ep in Hf.
Qed.

(** Conversely a line that does not end the session can be put in front
    of an open session. *)
Lemma stays_open_cons matched_apps app_Lst seen raw rest :
  PyStr.strip raw ≠ "0" →
  (PyStr.strip raw = EmptyString → app_Lst = []) →
  match picked matched_apps (PyStr.strip raw) with
  | Some index =>
      if decide (index ∈ seen) then stays_open matched_apps app_Lst seen rest
      else ∃ app, stays_open matched_apps (app_Lst ++ [app]) (index :: seen) rest
  | None => stays_open matched_apps app_Lst seen rest
  end →
  stays_open matched_apps app_Lst seen (raw :: rest).
Proof.
  intros Hraw Hempty Hrest.
  assert (Forall (λ line, PyStr.strip line ≠ "0") rest ∧
          ∀ pre line post, rest = pre ++ line :: post →
            PyStr.strip line = EmptyString →
            app_Lst = [] ∧ first_picks (picks_of matched_apps (raw :: pre)) seen = [])
    as [H0 He].
  { destruct (picked matched_apps (PyStr.strip raw)) as [index|] eqn:Ep.
    - destruct (decide (index ∈ seen)) as [Hin|Hnin].
      + destruct Hrest as [H0 He]. split; [done|]. intros pre line post E Hl.
        destruct (He pre line post E Hl) as [Ha Hf]. split; [done|].
        rewrite picks_of_cons, Ep. cbn [first_picks]. by rewrite decide_True.
      + destruct Hrest as (app & H0 & He). split; [done|]. intros pre line post E Hl.
        destruct (He pre line post E Hl) as [Ha _]. by destruct app_Lst.
    - destruct Hrest as [H0 He]. split; [done|]. intros pre line post E Hl.
      destruct (He pre line post E Hl) as [Ha Hf]. split; [done|].
      by rewrite picks_of_cons, Ep. }
  split; [by constructor|].
  intros [|first pre] line post E Hl.
  - injection E as <- <-. split; [by apply Hempty | done].
  - injection E as <- ->. by apply (He pre line post).
Qed.

Lemma picked_empty matched_apps : picked matched_apps EmptyString = None.
Proof. reflexivity. Qed.

(** What the loop returns on a session: lines that keep the prompt open,
    followed by what ends it. *)
Lemma select_loop_complete matched_apps lines tail :
  ∀ app_Lst selected seen,
    tracks matched_apps selected seen →
    stays_open matched_apps app_Lst seen lines →
    session_ends matched_apps
      (length seen + length (first_picks (picks_of matched_apps lines) seen)) tail
      (app_Lst ++ apps_at matched_apps (first_picks (picks_of matched_apps lines) seen)) →
    select_loop matched_apps (lines ++ tail) app_Lst selected =
      Some (app_Lst ++ apps_at matched_apps
                         (first_picks (picks_of matched_apps lines) seen)).
Proof.
  induction lines as [|raw rest IH]; intros acc sel seen Htr Hopen Hend.
  - destruct Htr as (Hmem & Hsize & Hle).
    cbn [picks_of omap list_omap first_picks apps_at length] in *.
    rewrite app_nil_r in *. rewrite Nat.add_0_r in Hend. cbn [app].
    destruct Hend as [Hc | (Hlt & stop & rest & -> & Hstop)].
    + assert ((size sel <? length matched_apps)%nat = false) as Hc'
        by (apply Nat.ltb_ge; lia).
      destruct tail; cbn [select_loop]; by rewrite Hc'.
    + assert ((size sel <? length matched_apps)%nat = true) as Hc'
        by (apply Nat.ltb_lt; lia).
      cbn [select_loop]. rewrite Hc'. cbn [negb].
      destruct Hstop as [H0 | [He Hne]].
      * rewrite decide_True by done. by destruct acc.
      * rewrite He. rewrite decide_False by done. rewrite picked_empty.
        rewrite decide_True by done. by destruct acc.
  - cbn [app select_loop].
    destruct (size sel <? length matched_apps)%nat eqn:Hc; cbn [negb].
    2:{ destruct Htr as (Hmem & Hsize & Hle). apply Nat.ltb_ge in Hc.
        destruct Hend as [Hend | [Hend _]]; [|lia].
        destruct (first_picks _ seen); [|simpl in Hend; lia].
        by rewrite app_nil_r. }
    apply Nat.ltb_lt in Hc.
    destruct (stays_open_next _ _ _ _ _ Hopen) as (Hraw & Hempty & Hrest).
    rewrite decide_False by done. rewrite picks_of_cons in *.
    destruct (picked matched_apps (PyStr.strip raw)) as [index|] eqn:Ep.
    + cbn [first_picks] in *.
      assert (index ∈ sel ↔ index ∈ seen) as Hiff by apply Htr.
      destruct (decide (index ∈ seen)) as [Hin|Hnin].
      * rewrite decide_True by (by apply Hiff). by apply IH.
      * rewrite decide_False by (by rewrite Hiff).
        destruct (lookup_lt_is_Some_2 matched_apps index (picked_lt _ _ _ Ep))
          as [app El].
        rewrite El. rewrite (apps_at_cons _ _ _ _ El) in *.
        replace (acc ++ app :: apps_at matched_apps
                   (first_picks (picks_of matched_apps rest) (index :: seen)))
          with ((acc ++ [app]) ++ apps_at matched_apps
                   (first_picks (picks_of matched_apps rest) (index :: seen))) in *
          by (by rewrite <- app_assoc).
        apply (IH (acc ++ [app]) ({[index]} ∪ sel) (index :: seen)).
        -- apply tracks_add; [done | by rewrite Hiff | done].
        -- apply Hrest.
        -- cbn [length] in *.
           by replace (S (length seen) + length
                         (first_picks (picks_of matched_apps rest) (index :: seen)))%nat
             with (length seen + S (length
                         (first_picks (picks_of matched_apps rest) (index :: seen))))%nat
             by lia.
    + assert (select_loop matched_apps (rest ++ tail) acc sel =
              Some (acc ++ apps_at matched_apps
                             (first_picks (picks_of matched_apps rest) seen))) as Hgo
        by (by apply IH).
      destruct (decide (PyStr.strip raw = EmptyString)) as [Hl|Hl]; [|exact Hgo].
      by rewrite (Hempty Hl) in *.
Qed.

(** Whatever the loop returns, it returns on a session. *)
Lemma select_loop_sound matched_apps inputs :
  ∀ app_Lst selected seen res,
    tracks matched_apps selected seen →
    select_loop matched_apps inputs app_Lst selected = Some res →
    ∃ lines tail,
      inputs = lines ++ tail ∧
      stays_open matched_apps app_Lst seen lines ∧
      res = app_Lst ++ apps_at matched_apps
                         (first_picks (picks_of matched_apps lines) seen) ∧
      session_ends matched_apps
        (length seen + length (first_picks (picks_of matched_apps lines) seen)) tail res.
Proof.
  assert (∀ acc seen, stays_open matched_apps acc seen []) as Hnil.
  { intros acc seen. split; [constructor|]. by intros [|? ?] ? ? ?. }
  assert (∀ tail acc sel seen,
            tracks matched_apps sel seen →
            (size sel <? length matched_apps)%nat = false →
            ∃ lines tail0,
              tail = lines ++ tail0 ∧ stays_open matched_apps acc seen lines ∧
              acc = acc ++ apps_at matched_apps
                              (first_picks (picks_of matched_apps lines) seen) ∧
              session_ends matched_apps
                (length seen + length (first_picks (picks_of matched_apps lines) seen))
                tail0 acc) as Hfull.
  { intros tail acc sel seen (Hmem & Hsize & Hle) Hc. apply Nat.ltb_ge in Hc.
    exists [], tail. split; [done|]. split; [apply Hnil|].
    split; [by rewrite app_nil_r|]. left. simpl. lia. }
  induction inputs as [|raw rest IH]; intros acc sel seen res Htr; cbn [select_loop].
  - destruct (size sel <? length matched_apps)%nat eqn:Hc; cbn [negb]; [done|].
    intros [= <-]. by eapply Hfull.
  - destruct (size sel <? length matched_apps)%nat eqn:Hc; cbn [negb].
    2:{ intros [= <-]. by eapply Hfull. }
    apply Nat.ltb_lt in Hc.
    assert (size sel = length seen) as Hsize by apply Htr.
    destruct (decide (PyStr.strip raw = "0")) as [Hz|Hz].
    { intros H. assert (res = acc) as -> by (destruct acc; by injection H as <-).
      exists [], (raw :: rest). split; [done|]. split; [apply Hnil|].
      split; [by rewrite app_nil_r|]. right. split; [simpl; lia|].
      exists raw, rest. split; [done|]. by left. }
    destruct (picked matched_apps (PyStr.strip raw)) as [index|] eqn:Ep.
    + assert (index ∈ sel ↔ index ∈ seen) as Hiff by apply Htr.
      assert (PyStr.strip raw ≠ EmptyString) as Hne.
      { intros Hl. rewrite Hl, picked_empty in Ep. done. }
      destruct (decide (index ∈ sel)) as [Hin|Hnin].
      * intros H. destruct (IH _ _ seen _ Htr H) as (c & t & -> & Hopen & -> & Hend).
        exists (raw :: c), t. split; [done|].
        split.
        { apply stays_open_cons; [done..|]. rewrite Ep.
          by rewrite decide_True by (by apply Hiff). }
        rewrite picks_of_cons, Ep. cbn [first_picks].
        rewrite decide_True by (by apply Hiff). done.
      * destruct (matched_apps !! index) as [app|] eqn:El; [|done].
        intros H.
        destruct (IH _ _ (index :: seen) _
                    (tracks_add _ _ _ _ Htr Hnin Hc) H)
          as (c & t & -> & Hopen & -> & Hend).
        exists (raw :: c), t. split; [done|].
        split.
        { apply stays_open_cons; [done..|]. rewrite Ep.
          rewrite decide_False by (by rewrite <- Hiff). by exists app. }
        rewrite picks_of_cons, Ep. cbn [first_picks].
        rewrite decide_False by (by rewrite <- Hiff).
        rewrite (apps_at_cons _ _ _ _ El).
        rewrite <- app_assoc in Hend |- *. cbn [Datatypes.app] in Hend |- *.
        split; [done|]. cbn [length] in Hend |- *.
        by replace (length seen + S (length
                      (first_picks (picks_of matched_apps c) (index :: seen))))%nat
          with (S (length seen) + length
                      (first_picks (picks_of matched_apps c) (index :: seen)))%nat
          by lia.
    + assert (select_loop matched_apps rest acc sel = Some res →
              ((PyStr.strip raw = EmptyString → acc = []) →
               ∃ lines tail,
                 raw :: rest = lines ++ tail ∧
                 stays_open matched_apps acc seen lines ∧
                 res = acc ++ apps_at matched_apps
                                (first_picks (picks_of matched_apps lines) seen) ∧
                 session_ends matched_apps
                   (length seen +
                    length (first_picks (picks_of matched_apps lines) seen)) tail res))
        as Hgo.
      { intros H Hempty.
        destruct (IH _ _ seen _ Htr H) as (c & t & -> & Hopen & -> & Hend).
        exists (raw :: c), t. split; [done|].
        split; [apply stays_open_cons; [done..|]; by rewrite Ep|].
        rewrite picks_of_cons, Ep. done. }
      destruct (decide (PyStr.strip raw = EmptyString)) as [Hl|Hl].
      * destruct acc as [|a acc'].
        -- intros H. by apply Hgo.
        -- intros [= <-]. exists [], (raw :: rest). split; [done|].
           split; [apply Hnil|]. split; [by rewrite app_nil_r|].
           right. split; [simpl; lia|]. exists raw, rest. split; [done|].
           by right.
      * intros H. by apply Hgo.
Qed.

Lemma select_loop_cancel matched_apps pre raw rest :
  matched_apps ≠ [] →
  Forall (λ r, picked matched_apps (PyStr.strip r) = None ∧ PyStr.strip r ≠ "0") pre →
  PyStr.strip raw = "0" →
  select_loop matched_apps (pre ++ raw :: rest) [] ∅ = Some [].
Proof.
  intros Hne Hpre H0.
  assert (negb (size (∅ : gset nat) <? length matched_apps)%nat = false) as Hc.
  { rewrite size_empty. destruct matched_apps; [done|]. done. }
  induction Hpre as [|r pre' [Hp Hr] _ IH]; cbn [app select_loop]; rewrite Hc.
  - by rewrite decide_True.
  - rewrite decide_False by done. rewrite Hp.
    by destruct (decide (PyStr.strip r = EmptyString)).
Qed.

Lemma select_loop_returns matched_apps inputs app_Lst selected :
  (∃ raw, raw ∈ inputs ∧ PyStr.strip raw = "0") →
  is_Some (select_loop matched_apps inputs app_Lst selected).
Proof.
  revert app_Lst selected. induction inputs as [|raw rest IH]; intros acc sel.
  - intros (r & Hr & _). by apply elem_of_nil in Hr.
  - intros (r & Hr & H0). cbn [select_loop]. destruct (negb _); [by eexists|].
    destruct (decide (PyStr.strip raw = "0")) as [Hz|Hz]; [by destruct acc; eexists|].
    assert (∃ raw0, raw0 ∈ rest ∧ PyStr.strip raw0 = "0") as Hrest.
    { apply elem_of_cons in Hr as [->|Hr]; [done | eauto]. }
    destruct (picked matched_apps (PyStr.strip raw)) as [index|] eqn:Ep.
    + destruct (decide (index ∈ sel)); [by apply IH|].
      destruct (lookup_lt_is_Some_2 matched_apps index (picked_lt _ _ _ Ep)) as [app ->].
      by apply IH.
    + destruct (decide (PyStr.strip raw = EmptyString)); [|by apply IH].
      destruct acc; [by apply IH | by eexists].
Qed.

Lemma tracks_empty matched_apps : tracks matched_apps ∅ [].
Proof.
  split; [|split].
  - intros i. by rewrite elem_of_nil, elem_of_empty.
  - by rewrite size_empty.
  - simpl. lia.
Qed.

(** C10. For lines that are ASCII and of at most 4300 characters,
    [handle_app_search] returns exactly on a session: a keyword line, lines
    that keep the app-number prompt open (none is [0], an empty line only
    while nothing is chosen), and then either every matched app is chosen,
    or the next line is [0], or it is empty and something is chosen. What
    it returns is then the matched apps at the indices chosen by the lines
    before the end, each index once, in the order of its first pick. So
    every returned app is a matched app, no index is used twice (no app is
    returned twice when the matched apps are distinct), and the order is
    the order of selection. Cancelling with [0] before any selection
    returns the empty list, and the function does return whenever a later
    line is [0]. *)
Theorem handle_app_search_selection :
  (∀ am keyword lines tail,
     let matched_apps := search_by_keyword am (PyStr.strip keyword) in
     let idxs := chosen matched_apps lines in
     is_ascii keyword = true → PyStr.strip keyword ≠ EmptyString →
     Forall plain_line lines →
     keeps_selecting matched_apps lines →
     session_ends matched_apps (length idxs) tail (apps_at matched_apps idxs) →
     handle_app_search am (keyword :: lines ++ tail) = Some (apps_at matched_apps idxs)) ∧
  (∀ am inputs res,
     Forall plain_line inputs →
     handle_app_search am inputs = Some res →
     ∃ keyword rest,
       inputs = keyword :: rest ∧
       ((PyStr.strip keyword = EmptyString ∧ res = []) ∨
        (PyStr.strip keyword ≠ EmptyString ∧
         ∃ lines tail,
           let matched_apps := search_by_keyword am (PyStr.strip keyword) in
           let idxs := chosen matched_apps lines in
           rest = lines ++ tail ∧
           keeps_selecting matched_apps lines ∧
           res = apps_at matched_apps idxs ∧
           session_ends matched_apps (length idxs) tail res))) ∧
  (∀ (matched_apps : list entry) lines,
     let idxs := chosen matched_apps lines in
     NoDup idxs ∧
     (∀ i, i ∈ idxs → i ∈ picks_of matched_apps lines) ∧
     Forall2 (λ i app, matched_apps !! i = Some app) idxs (apps_at matched_apps idxs) ∧
     (∀ app, app ∈ apps_at matched_apps idxs → app ∈ matched_apps) ∧
     (NoDup matched_apps → NoDup (apps_at matched_apps idxs))) ∧
  (∀ am keyword pre cancel rest,
     is_ascii keyword = true → Forall plain_line pre →
     Forall (λ r, picked (search_by_keyword am (PyStr.strip keyword)) (PyStr.strip r) = None
                  ∧ PyStr.strip r ≠ "0") pre →
     PyStr.strip cancel = "0" →
     handle_app_search am (keyword :: pre ++ cancel :: rest) = Some []) ∧
  (∀ am keyword lines,
     is_ascii keyword = true → Forall plain_line lines →
     (∃ raw, raw ∈ lines ∧ PyStr.strip raw = "0") →
     is_Some (handle_app_search am (keyword :: lines))).
Proof.
  split; [|split; [|split; [|split]]].
  - intros am keyword lines tail. cbn zeta. intros _ Hk _ Hopen Hend.
    unfold handle_app_search. rewrite decide_False by done.
    pose proof (select_loop_complete _ lines tail [] ∅ [] (tracks_empty _)
                  (proj1 (stays_open_keeps _ _) Hopen) Hend) as Hgo.
    destruct (search_by_keyword am (PyStr.strip keyword)) as [|a l].
    + unfold chosen. by rewrite picks_of_nil.
    + exact Hgo.
  - intros am inputs res _ H. unfold handle_app_search in H.
    destruct inputs as [|keyword rest]; [done|]. exists keyword, rest.
    split; [done|].
    destruct (decide (PyStr.strip keyword = EmptyString)) as [Hk|Hk].
    { injection H as <-. by left. }
    right. split; [done|]. cbn zeta.
    destruct (search_by_keyword am (PyStr.strip keyword)) as [|a l] eqn:Em.
    { injection H as <-. exists [], rest. split; [done|].
      split; [by apply stays_open_keeps; split; [constructor | intros [|? ?] ? ? ?]|].
      split; [done|]. by left. }
    destruct (select_loop_sound _ _ _ _ [] _ (tracks_empty _) H)
      as (lines & tail & -> & Hopen & -> & Hend).
    exists lines, tail. split; [done|].
    split; [by apply stays_open_keeps|]. split; [done|]. exact Hend.
  - intros matched_apps lines idxs.
    destruct (first_picks_spec (picks_of matched_apps lines) []) as [Hnd Hel].
    assert (Forall2 (λ i app, matched_apps !! i = Some app) idxs
              (apps_at matched_apps idxs)) as HF.
    { apply apps_at_lookup. intros i Hi. eapply picks_of_lt. by apply Hel. }
    split; [done|]. split; [intros i Hi; by apply Hel|]. split; [done|]. split.
    + intros app Hin. apply list_elem_of_lookup in Hin as [j Hj].
      destruct (Forall2_lookup_r _ _ _ _ _ HF Hj) as (i & _ & Hi).
      by eapply list_elem_of_lookup_2.
    + intros Hm. by eapply lookups_NoDup.
  - intros am keyword pre cancel rest _ _ Hpre Hc. unfold handle_app_search.
    destruct (decide (PyStr.strip keyword = EmptyString)); [done|].
    destruct (search_by_keyword am (PyStr.strip keyword)) as [|a l] eqn:Em; [done|].
    by apply select_loop_cancel.
  - intros am keyword lines _ _ H. unfold handle_app_search.
    destruct (decide (PyStr.strip keyword = EmptyString)); [by eexists|].
    destruct (search_by_keyword am (PyStr.strip keyword)); [by eexists|].
    by apply select_loop_returns.
Qed.

Lemma handle_app_search_selection_witness :
  handle_app_search example_manager ["com"; "2"; "x"; " 2 "; ""; "1"] =
  Some [example_list_entry].
Proof.
  apply (proj1 handle_app_search_selection example_manager "com"
           ["2"; "x"; " 2 "] [""; "1"]).
  - reflexivity.
  - vm_compute. discriminate.
  - repeat constructor.
  - split.
    + repeat constructor; vm_compute; discriminate.
    + intros pre line post E Hl.
      destruct pre as [|a pre]; simpl in E.
      { injection E as <- _. vm_compute in Hl. discriminate Hl. }
      injection E as _ E. destruct pre as [|b pre]; simpl in E.
      { injection E as <- _. vm_compute in Hl. discriminate Hl. }
      injection E as _ E. destruct pre as [|c pre]; simpl in E.
      { injection E as <- _. vm_compute in Hl. discriminate Hl. }
      injection E as _ E. by destruct pre.
  - right. split; [vm_compute; lia|]. exists EmptyString, ["1"].
    split; [reflexivity|]. right. split; [reflexivity|]. vm_compute. discriminate.
Defined.

(** The slip in [show_main_menu]: with 25 installed supported apps and a
    second page that displays nothing, the answer [21] switches the page,
    line 199 rebinds [_] and the invalid-number message raises. *)
Example menu_turn_shadowed_crash :
  menu_turn (λ apps _ page _, (if (page =? 0)%Z then apps else [], page, 2))
    {| app_list := replicate 25 example_entry;
       installed_apps := [];
       get_installed_supported_apps := replicate 25 example_entry;
       search_by_keyword := λ _, [] |}
    MenuManager_init "21" = Crash.
Proof. vm_compute. reflexivity. Qed.

(* ===================================================================== *)
(** * Further properties of the code *)
(* ===================================================================== *)

Set Warnings "-clear-no-such-hyp".

(** ** Matcher *)

Lemma lower_ascii_idem (c : ascii) :
  PyStr.lower_ascii (PyStr.lower_ascii c) = PyStr.lower_ascii c.
Proof. by destruct c as [[] [] [] [] [] [] [] []]. Qed.

Lemma lower_idem (s : string) : PyStr.lower (PyStr.lower s) = PyStr.lower s.
Proof. induction s as [|c s IH]; simpl; [done|]. by rewrite lower_ascii_idem, IH. Qed.

Lemma search_installed_keyword install_apps package_name kw kw' :
  PyStr.lower kw = PyStr.lower kw' →
  search_installed install_apps package_name kw =
  search_installed install_apps package_name kw'.
Proof.
  intros E. induction install_apps as [|ia rest IH]; simpl; [done|].
  by rewrite E, IH.
Qed.

Lemma code_matchb_keyword install_apps app kw kw' :
  PyStr.lower kw = PyStr.lower kw' →
  code_matchb kw install_apps app = code_matchb kw' install_apps app.
Proof.
  intros E. unfold code_matchb.
  by rewrite E, (search_installed_keyword _ _ kw kw' E).
Qed.

Lemma filter_ext_in_bool {A : Type} (f g : A → bool) (l : list A) :
  (∀ x, f x = g x) → List.filter f l = List.filter g l.
Proof. intros H. induction l as [|x l IH]; simpl; [done|]. by rewrite H, IH. Qed.

Lemma filter_sublist_bool {A : Type} (f g : A → bool) (l : list A) :
  (∀ x, f x = true → g x = true) → List.filter f l `sublist_of` List.filter g l.
Proof.
  intros H. induction l as [|x l IH]; simpl; [done|].
  destruct (f x) eqn:Ef.
  - rewrite (H x Ef). by constructor.
  - destruct (g x); [by constructor | done].
Qed.

Lemma search_installed_more install_apps more package_name keyword :
  search_installed install_apps package_name keyword = true →
  search_installed (install_apps ++ more) package_name keyword = true.
Proof.
  rewrite !search_installed_spec. intros (ia & Hin & H). exists ia.
  split; [|done]. apply elem_of_app. by left.
Qed.

(** X1. With an ASCII keyword, on a catalog whose entries all carry one
    ASCII string as [packageName] and with installed apps whose display
    names are ASCII, [search_apps] returns, in catalog order, exactly the
    entries the specification's matcher accepts: the keyword is in the
    package name, or in the display name of an installed app with that
    bundle identifier, the case of the letters A to Z ignored. *)
Theorem search_apps_string_catalog app_list install_apps keyword :
  is_ascii keyword = true →
  Forall (λ app, ∃ name, get app "packageName" = VStr name ∧ is_ascii name = true)
    app_list →
  Forall (λ ia, is_ascii (CFBundleName ia) = true) install_apps →
  search_apps app_list install_apps keyword `sublist_of` app_list ∧
  ∀ app, app ∈ search_apps app_list install_apps keyword ↔
         app ∈ app_list ∧ spec_match keyword install_apps app.
Proof.
  intros _ Hall _. split; [apply search_apps_sublist|].
  intros app. rewrite search_apps_elem. split.
  - intros [Hin Hm]. split; [done|].
    destruct (proj1 (Forall_forall _ _) Hall app Hin) as (name & E & _).
    by apply (code_match_single _ _ _ name E).
  - intros [Hin Hm]. split; [done|].
    destruct (proj1 (Forall_forall _ _) Hall app Hin) as (name & E & _).
    by apply (code_match_single _ _ _ name E).
Qed.

Lemma search_apps_string_catalog_witness :
  example_entry ∈ search_apps [example_entry] [example_installed] "FOO".
Proof.
  apply (search_apps_string_catalog [example_entry] [example_installed] "FOO").
  - reflexivity.
  - constructor; [by exists "com.a" | constructor].
  - constructor; [reflexivity | constructor].
  - split; [by left|]. right. exists example_installed, "com.a".
    split; [by left|]. split; [by left|]. split; [done|].
    by exists EmptyString, EmptyString.
Defined.

(** X2. [search_apps] works entry by entry: the result for two catalogs
    put one after the other is the two results put one after the other,
    and an empty catalog gives an empty result. *)
Theorem search_apps_app l1 l2 install_apps keyword :
  search_apps (l1 ++ l2) install_apps keyword =
    search_apps l1 install_apps keyword ++ search_apps l2 install_apps keyword ∧
  search_apps [] install_apps keyword = [].
Proof. split; [|done]. rewrite !search_apps_filter. apply List.filter_app. Qed.

(** X3. Installing more apps never removes a match: the result for a list
    of installed apps is a subsequence of the result for any extension of
    that list. *)
Theorem search_apps_more_installed app_list install_apps more keyword :
  search_apps app_list install_apps keyword
    `sublist_of` search_apps app_list (install_apps ++ more) keyword.
Proof.
  rewrite !search_apps_filter. apply filter_sublist_bool.
  intros app. unfold code_matchb. rewrite !orb_true_iff.
  intros [H|H]; [by left | right; by apply search_installed_more].
Qed.

(** X4. The keyword is used only through its lower-case form: two keywords
    that differ in case give the same result, in particular a keyword and
    its lower-case form. *)
Theorem search_apps_keyword_case app_list install_apps kw kw' :
  PyStr.lower kw = PyStr.lower kw' →
  search_apps app_list install_apps kw = search_apps app_list install_apps kw' ∧
  search_apps app_list install_apps (PyStr.lower kw) =
    search_apps app_list install_apps kw.
Proof.
  intros E. rewrite !search_apps_filter. split; apply filter_ext_in_bool; intros app.
  - by apply code_matchb_keyword.
  - apply code_matchb_keyword, lower_idem.
Qed.

Lemma search_apps_keyword_case_witness :
  search_apps [example_entry] [example_installed] "Com.A" =
  search_apps [example_entry] [example_installed] "cOM.a".
Proof.
  apply (search_apps_keyword_case [example_entry] [example_installed] "Com.A" "cOM.a").
  vm_compute. reflexivity.
Defined.

(** ** Compatibility gate on arbitrary configuration values *)





(** ** Scanner: failure and paths *)

Lemma string_app_cons (x : ascii) (a b : string) :
  String x a +:+ b = String x (a +:+ b).
Proof. reflexivity. Qed.

Lemma string_app_assoc (a b c : string) : (a +:+ b) +:+ c = a +:+ (b +:+ c).
Proof.
  induction a as [|x a IH]; [done|]. by rewrite !string_app_cons, IH.
Qed.

Lemma string_app_nil_r (a : string) : a +:+ EmptyString = a.
Proof. induction a as [|x a IH]; [done|]. by rewrite string_app_cons, IH. Qed.

Lemma last_segment_acc_no_slash (t cur : string) :
  no_slash t = true → PyStr.last_segment_acc t cur = cur +:+ t.
Proof.
  revert cur. induction t as [|c t IH]; intros cur; simpl.
  - by rewrite string_app_nil_r.
  - destruct (decide (c = "/"%char)); [done|]. intros H.
    rewrite IH by done. by rewrite string_app_assoc.
Qed.

Lemma last_segment_acc_slash (a t cur : string) :
  PyStr.last_segment_acc (a +:+ "/" +:+ t) cur = PyStr.last_segment_acc t EmptyString.
Proof.
  revert cur. induction a as [|c a IH]; intros cur; [done|].
  rewrite string_app_cons. simpl.
  destruct (decide (c = "/"%char)); apply IH.
Qed.

Lemma last_segment_slash (a t : string) :
  no_slash t = true → PyStr.last_segment (a +:+ "/" +:+ t) = t.
Proof.
  intros H. unfold PyStr.last_segment.
  by rewrite last_segment_acc_slash, last_segment_acc_no_slash.
Qed.

Lemma path_join_plain (a b : string) :
  a ≠ EmptyString → PyStr.last_segment a ≠ EmptyString →
  PyStr.startswith "/" b = false →
  PyStr.path_join a b = a +:+ "/" +:+ b.
Proof.
  intros Ha Hl Hb. unfold PyStr.path_join. rewrite Hb.
  destruct a; [done|]. by rewrite decide_False.
Qed.

Lemma no_slash_startswith (t : string) :
  no_slash t = true → PyStr.startswith "/" t = false.
Proof.
  destruct t as [|c t]; simpl; [done|].
  destruct (decide (c = "/"%char)) as [->|Hne]; [done|]. intros _.
  destruct (decide ("/"%char = c)); [congruence | done].
Qed.

Lemma string_app_not_nil (a b : string) : b ≠ EmptyString → a +:+ b ≠ EmptyString.
Proof. intros Hb. destruct a; [done | by rewrite string_app_cons]. Qed.

Lemma info_plist_path_plain (base_dir app : string) :
  base_dir ∈ base_dirs → app ≠ EmptyString → no_slash app = true →
  info_plist_path base_dir app = (base_dir +:+ "/" +:+ app) +:+ "/Contents/Info.plist" ∧
  PyStr.path_join (PyStr.path_join (base_dir +:+ "/" +:+ app) "Contents") "Info.plist" =
    (base_dir +:+ "/" +:+ app) +:+ "/Contents/Info.plist".
Proof.
  intros Hb Ha Hs.
  assert (base_dir ≠ EmptyString ∧ PyStr.last_segment base_dir ≠ EmptyString) as [Hb1 Hb2].
  { unfold base_dirs in Hb.
    repeat (apply elem_of_cons in Hb as [->|Hb]; [by vm_compute|]).
    by apply elem_of_nil in Hb. }
  assert (PyStr.path_join base_dir app = base_dir +:+ "/" +:+ app) as E1.
  { apply path_join_plain; auto using no_slash_startswith. }
  assert (∀ x y, x ≠ EmptyString → no_slash x = true → y ≠ EmptyString →
                 no_slash y = true →
                 PyStr.path_join (base_dir +:+ "/" +:+ x) y =
                   (base_dir +:+ "/" +:+ x) +:+ "/" +:+ y) as Hstep.
  { intros x y Hx Hnx Hy Hny. apply path_join_plain.
    - by apply string_app_not_nil.
    - by rewrite last_segment_slash.
    - by apply no_slash_startswith. }
  assert (PyStr.path_join (PyStr.path_join (base_dir +:+ "/" +:+ app) "Contents")
            "Info.plist" = (base_dir +:+ "/" +:+ app) +:+ "/Contents/Info.plist") as E2.
  { rewrite Hstep by done.
    rewrite path_join_plain.
    - by rewrite !string_app_assoc.
    - by apply string_app_not_nil.
    - by rewrite last_segment_slash.
    - done. }
  split; [|exact E2]. unfold info_plist_path. by rewrite E1.
Qed.

(** X6. [scan_apps] raises exactly when one of its two roots exists and
    cannot be listed, whatever the other root holds; when neither root
    exists it returns the empty list. *)
Theorem scan_apps_failure (fs : filesystem) :
  (scan_apps fs = None ↔
     ∃ base_dir, base_dir ∈ base_dirs ∧ fs_exists fs base_dir = true ∧
                 fs_listdir fs base_dir = None) ∧
  ((∀ base_dir, base_dir ∈ base_dirs → fs_exists fs base_dir = false) →
     scan_apps fs = Some []).
Proof.
  unfold scan_apps, base_dirs. cbn [scan_roots]. split.
  - destruct (fs_exists fs "/Applications") eqn:E1;
      destruct (fs_exists fs "/Applications/Setapp") eqn:E2; cbn [negb];
      destruct (fs_listdir fs "/Applications") eqn:L1;
      destruct (fs_listdir fs "/Applications/Setapp") eqn:L2;
      (split; [try done; intros _ | intros (b & Hb & Hex & Hl)]);
      try (repeat (apply elem_of_cons in Hb as [->|Hb]; [congruence|]);
           by apply elem_of_nil in Hb);
      try (exists "/Applications"; split; [by left | done]);
      try (exists "/Applications/Setapp"; split; [by right; left | done]).
  - intros H. rewrite !H; [done | by right; left | by left].
Qed.

Lemma scan_apps_failure_witness :
  scan_apps {| fs_exists := λ _, false; fs_listdir := λ _, None;
               fs_load_plist := λ _, None |} = Some [].
Proof.
  apply (proj2 (scan_apps_failure _)). intros base_dir _. reflexivity.
Defined.

(** X7. For directory entries that are non-empty names without a slash,
    every record the scanner makes of a root carries in [appBaseLocate] the
    bundle path whose [Contents/Info.plist], as [getAppMainExecutable],
    [getBundleID] and the fallback of [main] build it, is the manifest the
    record was read from: loading that path and parsing it again gives the
    record back. *)
Theorem scan_record_manifest_path (fs : filesystem) (base_dir : string)
    (lst : list string) (r : InstalledApp) :
  base_dir ∈ base_dirs →
  fs_exists fs base_dir = true →
  fs_listdir fs base_dir = Some lst →
  Forall (λ app, app ≠ EmptyString ∧ no_slash app = true) lst →
  r ∈ records_of_root fs base_dir →
  ∃ app_info,
    fs_load_plist fs (appBaseLocate r +:+ "/Contents/Info.plist") = Some app_info ∧
    fs_load_plist fs
      (PyStr.path_join (PyStr.path_join (appBaseLocate r) "Contents") "Info.plist")
      = Some app_info ∧
    parse_app_info (appBaseLocate r) app_info = r.
Proof.
  intros Hb Hex Hl Hnames Hr. unfold records_of_root in Hr. rewrite Hex, Hl in Hr.
  simpl in Hr. apply list_elem_of_omap in Hr as (app & Hin & Hr).
  destruct (proj1 (Forall_forall _ _) Hnames app Hin) as [Hne Hns].
  destruct (info_plist_path_plain base_dir app Hb Hne Hns) as [E1 E2].
  unfold readable_manifest in Hr. rewrite E1 in Hr.
  destruct (fs_exists fs ((base_dir +:+ "/" +:+ app) +:+ "/Contents/Info.plist"));
    [|by simpl in Hr].
  destruct (fs_load_plist fs ((base_dir +:+ "/" +:+ app) +:+ "/Contents/Info.plist"))
    as [app_info|] eqn:Eload; [|by simpl in Hr].
  simpl in Hr. injection Hr as <-. exists app_info. simpl. by rewrite E2.
Qed.

Lemma scan_record_manifest_path_witness :
  ∃ app_info,
    fs_load_plist example_fs ("/Applications/Foo.app" +:+ "/Contents/Info.plist")
      = Some app_info.
Proof.
  destruct (scan_record_manifest_path example_fs "/Applications"
              ["Foo.app"; "Bad.app"; "notes.txt"]
              (parse_app_info "/Applications/Foo.app" {[ "CFBundleExecutable" := "Foo" ]}))
    as (app_info & H & _).
  - by left.
  - vm_compute. reflexivity.
  - vm_compute. reflexivity.
  - repeat constructor; vm_compute; discriminate.
  - vm_compute. by left.
  - by exists app_info.
Defined.

(** ** Nothing happens without a yes *)

Lemma un_bind {A B : Type} (Q1 : A → Prop) (Q2 : B → Prop) (p : prog A) (f : A → prog B) :
  unapproved Q1 p → (∀ a, Q1 a → unapproved Q2 (f a)) → unapproved Q2 (bind p f).
Proof.
  intros Hp Hf. induction Hp as [a Ha| |prompt k Hk IH|X e k Hm Hi Hk IH]; simpl.
  - by apply Hf.
  - constructor.
  - apply un_input. intros o Ho. by apply IH.
  - apply un_vis; [done | done |]. intros x. apply IH.
Qed.

Lemma un_weaken {A : Type} (Q Q' : A → Prop) (p : prog A) :
  unapproved Q p → (∀ a, Q a → Q' a) → unapproved Q' p.
Proof.
  intros Hp HQ. induction Hp as [a Ha| |prompt k Hk IH|X e k Hm Hi Hk IH].
  - constructor. by apply HQ.
  - constructor.
  - apply un_input. intros o Ho. by apply IH.
  - apply un_vis; [done | done |]. intros x. apply IH.
Qed.

Lemma un_bind_any {A B : Type} (Q : B → Prop) (p : prog A) (f : A → prog B) :
  unapproved (λ _, True) p → (∀ a, unapproved Q (f a)) → unapproved Q (bind p f).
Proof. intros Hp Hf. eapply un_bind; [exact Hp | auto]. Qed.

Lemma un_for_each {T : Type} (l : list T) (body : T → prog unit) :
  (∀ x, unapproved (λ _, True) (body x)) → unapproved (λ _, True) (for_each l body).
Proof.
  intros Hb. induction l as [|x rest IH]; simpl; [by constructor|].
  apply un_bind_any; [apply Hb | intros _; exact IH].
Qed.

Lemma un_print s : unapproved (λ _, True) (print s).
Proof. apply un_vis; [done | done |]. intros x. by constructor. Qed.

Lemma un_raise_if_none {A : Type} (o : option A) : unapproved (λ _, True) (raise_if_none o).
Proof. destruct o; by constructor. Qed.

Lemma un_require_str v : unapproved (λ _, True) (require_str v).
Proof. destruct v; by constructor. Qed.

Lemma un_path_exists p : unapproved (λ _, True) (path_exists p).
Proof. apply un_vis; [done | done |]. intros x. by constructor. Qed.

Lemma un_load_plist p : unapproved (λ _, True) (load_plist p).
Proof.
  unfold load_plist. apply un_bind_any; [|apply un_raise_if_none].
  apply un_vis; [done | done |]. intros x. by constructor.
Qed.

Lemma un_input_line prompt : unapproved (λ _, True) (input prompt).
Proof. apply un_input. intros o _. apply un_raise_if_none. Qed.

(** The approval prompt: what follows a yes is not looked at. *)
Lemma un_approval (Q : unit → Prop) prompt (p : prog unit) :
  Q tt →
  unapproved Q
    (bind (read_input prompt)
       (λ answer, if decide (PyStr.lower (PyStr.strip answer) = "y") then p else Ret tt)).
Proof.
  intros HQ. unfold read_input, input. cbn. apply un_input. intros [raw|] Ho; cbn.
  - fold (answer_of raw). rewrite decide_False by (by apply Ho). by constructor.
  - constructor.
Qed.

Create HintDb quiet.

#[local] Hint Resolve un_print un_raise_if_none un_require_str un_path_exists
  un_load_plist un_input_line : quiet.

Ltac quiet :=
  repeat (intros; cbv zeta;
          first
            [ solve [auto with quiet nocore]
            | apply un_ret; exact I
            | apply un_throw
            | apply un_approval; exact I
            | apply un_vis; [reflexivity | reflexivity |]
            | apply un_bind_any
            | apply un_for_each
            | match goal with
              | |- unapproved _ (if ?b then _ else _) => destruct b
              | |- unapproved _ (match ?x with _ => _ end) => destruct x
              end ]).

Lemma process_app_unapproved rt base_public_config install_apps app :
  unapproved (λ _, True) (process_app rt base_public_config install_apps app).
Proof. unfold process_app. quiet. Qed.

Lemma keyword_mode_unapproved matched_apps :
  unapproved (λ _, True) (keyword_mode matched_apps).
Proof. unfold keyword_mode. quiet. Qed.

Lemma browse_mode_unapproved app_list app_Lst :
  unapproved (λ _, True) (browse_mode app_list app_Lst).
Proof.
  revert app_Lst. induction app_list as [|app rest IH]; intros acc; simpl; quiet.
Qed.

#[local] Hint Resolve process_app_unapproved keyword_mode_unapproved
  browse_mode_unapproved : quiet.

Lemma main_unapproved rt base_public_config app_list install_apps :
  unapproved (λ _, True) (main rt base_public_config app_list install_apps).
Proof. unfold main. quiet. Qed.

Lemma world_handler_quiet status ext plists dirs {X : Type} (e : event X) w :
  mutating e = false → is_input (log_of e) = false →
  (world_handler status ext plists dirs X e w).1 = w.
Proof. by destruct e. Qed.

Lemma unapproved_world {A : Type} (Q : A → Prop) status ext plists dirs (p : prog A) :
  unapproved Q p →
  ∀ w, Forall (λ raw, answer_of raw ≠ "y") (typed w) →
    commands_of (interp (world_handler status ext plists dirs) p w).1.1 = [] ∧
    files (interp (world_handler status ext plists dirs) p w).1.2 = files w.
Proof.
  intros Hp. induction Hp as [a Ha| |prompt k Hk IH|X e k Hm Hi Hk IH]; intros w Hw.
  - done.
  - done.
  - cbn [interp world_handler]. destruct (typed w) as [|line rest] eqn:Et.
    + assert (∀ raw, (None : option string) = Some raw → answer_of raw ≠ "y") as Ho
        by done.
      specialize (IH None Ho w). rewrite Et in IH. specialize (IH Hw).
      destruct (interp _ (k None) w) as [[tr w'] r]. simpl in *. done.
    + apply Forall_cons in Hw as [Hl Hrest].
      assert (∀ raw, Some line = Some raw → answer_of raw ≠ "y") as Ho
        by (by intros raw [= <-]).
      specialize (IH (Some line) Ho {| files := files w; typed := rest |} Hrest).
      destruct (interp _ (k (Some line)) _) as [[tr w'] r]. simpl in *. done.
  - cbn [interp].
    pose proof (world_handler_quiet status ext plists dirs e w Hm Hi) as Hq.
    destruct (world_handler status ext plists dirs X e w) as [w1 x]. simpl in Hq.
    subst w1. specialize (IH x w Hw).
    destruct (interp _ (k x) w) as [[tr w'] r]. simpl in *.
    split; [|by destruct IH]. destruct IH as [IH _].
    unfold commands_of in *. cbn [omap list_omap projT2 log_of].
    by destruct e.
Qed.

(** X8. When the typed lines are ASCII and none of them reads [y] (blanks
    around it and the case aside), [main] (and the turn of its loop for one
    app) runs no command and leaves every file as it was, whatever the
    catalog, the installed apps and the other answers are. *)
Theorem nothing_without_yes status ext plists dirs rt base_public_config
    app_list install_apps (w : world) :
  Forall (λ raw, is_ascii raw = true) (typed w) →
  Forall (λ raw, answer_of raw ≠ "y") (typed w) →
  (commands_of (interp (world_handler status ext plists dirs)
                  (main rt base_public_config app_list install_apps) w).1.1 = [] ∧
   files (interp (world_handler status ext plists dirs)
            (main rt base_public_config app_list install_apps) w).1.2 = files w) ∧
  (∀ app,
     commands_of (interp (world_handler status ext plists dirs)
                    (process_app rt base_public_config install_apps app) w).1.1 = [] ∧
     files (interp (world_handler status ext plists dirs)
              (process_app rt base_public_config install_apps app) w).1.2 = files w).
Proof.
  intros _ Hw. split.
  - exact (unapproved_world (λ _, True) status ext plists dirs _
             (main_unapproved _ _ _ _) w Hw).
  - intros app.
    exact (unapproved_world (λ _, True) status ext plists dirs _
             (process_app_unapproved _ _ _ _) w Hw).
Qed.

Lemma nothing_without_yes_witness :
  commands_of (interp (example_handler 0)
                 (main example_rt ∅ [example_catalog_entry] [example_installed])
                 {| files := {[ example_dest := "binary" ]};
                    typed := ["com"; "1"; "n"] |}).1.1 = [].
Proof.
  refine (proj1 (proj1 (nothing_without_yes (λ _, 0) example_ext example_plists
                          (λ _, false) example_rt ∅ [example_catalog_entry]
                          [example_installed]
                          {| files := {[ example_dest := "binary" ]};
                             typed := ["com"; "1"; "n"] |} _ _))).
  - repeat constructor.
  - repeat constructor; vm_compute; discriminate.
Defined.

(** ** Numbers typed at the prompts *)

Lemma int_acc_shift (s : string) (acc : Z) :
  PyStr.int_acc s acc = acc * 10 ^ Z.of_nat (String.length s) + PyStr.int_acc s 0.
Proof.
  revert acc. induction s as [|c s IH]; intros acc; simpl String.length.
  - simpl. lia.
  - cbn [PyStr.int_acc]. rewrite (IH (10 * acc + _)), (IH (10 * 0 + _)).
    rewrite Nat2Z.inj_succ, Z.pow_succ_r by lia. ring.
Qed.

Lemma pretty_N_char_value (d : N) :
  (d < 10)%N → Z.of_nat (nat_of_ascii (pretty_N_char d)) - 48 = Z.of_N d.
Proof.
  intros Hd.
  assert (d = 0 ∨ d = 1 ∨ d = 2 ∨ d = 3 ∨ d = 4 ∨ d = 5 ∨ d = 6 ∨ d = 7 ∨ d = 8
          ∨ d = 9)%N as H by lia.
  repeat (destruct H as [->|H]; [reflexivity|]). by subst.
Qed.

Lemma pretty_N_char_digit (d : N) : PyStr.is_digit (pretty_N_char d) = true.
Proof. unfold pretty_N_char. by repeat case_match. Qed.

Lemma pretty_N_go_value (x : N) (s : string) :
  PyStr.int (pretty_N_go x s) =
  Z.of_N x * 10 ^ Z.of_nat (String.length s) + PyStr.int s.
Proof.
  revert s. induction (N.lt_wf_0 x) as [x _ IH]; intros s.
  assert (x = 0 ∨ 0 < x)%N as [->|Hx] by lia.
  - rewrite pretty_N_go_0. lia.
  - rewrite pretty_N_go_step by done. rewrite IH by (by apply N.div_lt).
    unfold PyStr.int. cbn [PyStr.int_acc String.length].
    rewrite (int_acc_shift s (10 * 0 + _)).
    rewrite pretty_N_char_value by (by apply N.mod_lt).
    rewrite Nat2Z.inj_succ, Z.pow_succ_r by lia.
    rewrite (N.div_mod x 10) at 3 by done.
    rewrite N2Z.inj_add, N2Z.inj_mul. simpl Z.of_N. ring.
Qed.

Lemma pretty_N_go_digits (x : N) (s : string) :
  PyStr.all_digits s = true → PyStr.all_digits (pretty_N_go x s) = true.
Proof.
  revert s. induction (N.lt_wf_0 x) as [x _ IH]; intros s Hs.
  assert (x = 0 ∨ 0 < x)%N as [->|Hx] by lia.
  - by rewrite pretty_N_go_0.
  - rewrite pretty_N_go_step by done. apply IH; [by apply N.div_lt|].
    cbn [PyStr.all_digits]. by rewrite pretty_N_char_digit, Hs.
Qed.

Lemma pretty_N_go_nonempty (x : N) (s : string) :
  s ≠ EmptyString → pretty_N_go x s ≠ EmptyString.
Proof.
  revert s. induction (N.lt_wf_0 x) as [x _ IH]; intros s Hs.
  assert (x = 0 ∨ 0 < x)%N as [->|Hx] by lia.
  - by rewrite pretty_N_go_0.
  - rewrite pretty_N_go_step by done. apply IH; [by apply N.div_lt | done].
Qed.

Lemma pretty_nat_digits (n : nat) :
  PyStr.all_digits (pretty n) = true ∧ pretty n ≠ EmptyString ∧
  PyStr.int (pretty n) = Z.of_nat n.
Proof.
  unfold pretty, pretty_nat, pretty, pretty_N.
  destruct (decide (N.of_nat n = 0%N)) as [E|E].
  - split; [done|]. split; [done|]. assert (n = 0)%nat as -> by lia. reflexivity.
  - split; [by apply pretty_N_go_digits|]. split.
    + assert (0 < N.of_nat n)%N as Hpos by lia.
      rewrite pretty_N_go_step by done. by apply pretty_N_go_nonempty.
    + rewrite pretty_N_go_value. simpl. unfold PyStr.int. simpl. lia.
Qed.

Lemma digit_not_space (c : ascii) : PyStr.is_digit c = true → PyStr.is_space c = false.
Proof. by destruct c as [[] [] [] [] [] [] [] []]. Qed.

Lemma rstrip_digits (s : string) : PyStr.all_digits s = true → PyStr.rstrip s = s.
Proof.
  induction s as [|c s IH]; [done|]. cbn [PyStr.all_digits PyStr.rstrip].
  intros [Hc Hs]%andb_true_iff. rewrite IH by done.
  destruct s; [|done]. by rewrite digit_not_space.
Qed.

Lemma strip_digits (s : string) : PyStr.all_digits s = true → PyStr.strip s = s.
Proof.
  intros H. unfold PyStr.strip.
  assert (PyStr.lstrip s = s) as ->; [|by apply rstrip_digits].
  destruct s as [|c s]; [done|]. cbn [PyStr.all_digits] in H.
  apply andb_true_iff in H as [Hc _]. cbn [PyStr.lstrip]. by rewrite digit_not_space.
Qed.

Lemma typed_number (n : nat) :
  PyStr.isdigit (PyStr.strip (pretty n)) = true ∧
  PyStr.int (PyStr.strip (pretty n)) = Z.of_nat n.
Proof.
  destruct (pretty_nat_digits n) as (Hd & Hne & Hv).
  rewrite strip_digits by done. split; [|done].
  unfold PyStr.isdigit. by destruct (pretty n).
Qed.

(** X9. Typing the number shown next to an entry picks that entry: at the
    selection prompt of [main], which lists the matches as [1. name],
    [2. name], ..., the line with the decimal number [i+1] selects the
    match at position [i]; at the app-number prompt of [handle_app_search]
    it picks index [i]. *)
Theorem typed_number_selects (matched_apps : list entry) (i : nat) (app : entry) :
  matched_apps !! i = Some app →
  select_app matched_apps (PyStr.strip (pretty (S i))) = Selected app ∧
  picked matched_apps (PyStr.strip (pretty (S i))) = Some i.
Proof.
  intros Hi. destruct (typed_number (S i)) as [Hd Hv].
  pose proof (lookup_lt_Some _ _ _ Hi) as Hlt.
  unfold select_app, picked. rewrite Hd, Hv. cbn [negb orb andb].
  assert ((Z.of_nat (S i) =? 0) = false) as -> by (apply Z.eqb_neq; lia).
  assert ((Z.of_nat (length matched_apps) <? Z.of_nat (S i)) = false) as ->
    by (apply Z.ltb_ge; lia).
  assert ((0 <? Z.of_nat (S i)) = true) as -> by (apply Z.ltb_lt; lia).
  assert ((Z.of_nat (S i) <=? Z.of_nat (length matched_apps)) = true) as ->
    by (apply Z.leb_le; lia).
  assert (Z.to_nat (Z.of_nat (S i) - 1) = i) as -> by lia.
  cbn [orb andb]. by rewrite Hi.
Qed.

Lemma typed_number_selects_witness :
  select_app [example_entry; example_list_entry] (PyStr.strip (pretty 2%nat)) =
  Selected example_list_entry.
Proof.
  apply (typed_number_selects [example_entry; example_list_entry] 1 example_list_entry).
  reflexivity.
Defined.

(** ** What the main menu returns *)





(** ** Answers to the yes/no prompts *)

Lemma lower_ascii_space (c : ascii) :
  PyStr.is_space (PyStr.lower_ascii c) = PyStr.is_space c.
Proof. by destruct c as [[] [] [] [] [] [] [] []]. Qed.

Lemma lstrip_lower (s : string) :
  PyStr.lstrip (PyStr.lower s) = PyStr.lower (PyStr.lstrip s).
Proof.
  induction s as [|c s IH]; [done|]. cbn [PyStr.lower PyStr.lstrip].
  rewrite lower_ascii_space. by destruct (PyStr.is_space c).
Qed.

Lemma rstrip_lower (s : string) :
  PyStr.rstrip (PyStr.lower s) = PyStr.lower (PyStr.rstrip s).
Proof.
  induction s as [|c s IH]; [done|]. cbn [PyStr.lower PyStr.rstrip].
  rewrite IH, lower_ascii_space.
  destruct (PyStr.rstrip s); cbn [PyStr.lower]; [by destruct (PyStr.is_space c) | done].
Qed.

Lemma rstrip_idem (s : string) : PyStr.rstrip (PyStr.rstrip s) = PyStr.rstrip s.
Proof.
  induction s as [|c s IH]; [done|]. cbn [PyStr.rstrip].
  destruct (PyStr.rstrip s) as [|d r] eqn:E.
  - destruct (PyStr.is_space c) eqn:Ec; [done|]. cbn [PyStr.rstrip]. by rewrite Ec.
  - cbn [PyStr.rstrip] in IH |- *. by rewrite IH.
Qed.

Lemma lstrip_head (s : string) :
  match PyStr.lstrip s with
  | String c _ => PyStr.is_space c = false
  | EmptyString => True
  end.
Proof.
  induction s as [|c s IH]; [done|]. cbn [PyStr.lstrip].
  by destruct (PyStr.is_space c) eqn:E.
Qed.

Lemma lstrip_rstrip (t : string) :
  match t with String c _ => PyStr.is_space c = false | EmptyString => True end →
  PyStr.lstrip (PyStr.rstrip t) = PyStr.rstrip t.
Proof.
  destruct t as [|c t]; [done|]. intros Hc. cbn [PyStr.rstrip].
  destruct (PyStr.rstrip t); rewrite ?Hc; cbn [PyStr.lstrip]; by rewrite Hc.
Qed.

Lemma strip_idem (s : string) : PyStr.strip (PyStr.strip s) = PyStr.strip s.
Proof.
  unfold PyStr.strip. rewrite (lstrip_rstrip _ (lstrip_head s)). apply rstrip_idem.
Qed.

Lemma strip_lower (s : string) :
  PyStr.strip (PyStr.lower s) = PyStr.lower (PyStr.strip s).
Proof. unfold PyStr.strip. by rewrite lstrip_lower, rstrip_lower. Qed.

Lemma lower_is_y (s : string) : PyStr.lower s = "y" ↔ s = "y" ∨ s = "Y".
Proof.
  split; [|by intros [->| ->]].
  destruct s as [|c [|d s]]; [done| |done]. cbn [PyStr.lower].
  intros [= H]. revert H.
  destruct c as [[] [] [] [] [] [] [] []]; vm_compute; intros H;
    first [discriminate H | by left | by right].
Qed.

Lemma answer_of_eq (raw : string) : answer_of raw = PyStr.lower (PyStr.strip raw).
Proof. unfold answer_of. by rewrite strip_lower, strip_idem, lower_idem. Qed.

Lemma answer_of_yes (raw : string) :
  answer_of raw = "y" ↔ PyStr.strip raw = "y" ∨ PyStr.strip raw = "Y".
Proof. rewrite answer_of_eq. apply lower_is_y. Qed.

Lemma answer_of_no (raw : string) :
  answer_of raw = "n" ↔ PyStr.strip raw = "n" ∨ PyStr.strip raw = "N".
Proof.
  rewrite answer_of_eq. split; [|by intros [->| ->]].
  destruct (PyStr.strip raw) as [|c [|d s]]; [done| |done]. cbn [PyStr.lower].
  intros [= H]. revert H.
  destruct c as [[] [] [] [] [] [] [] []]; vm_compute; intros H;
    first [discriminate H | by left | by right].
Qed.

(** X11. On an ASCII line, [read_input] returns the line stripped and in
    lower case, and the further [.strip().lower()] at the prompts of [main]
    leaves that answer as it is. For an entry whose app is installed and
    compatible (and without [autoHandleSetapp]) the turn of the loop prints
    its question, reads the line, and then runs the sequencer exactly when
    the line, blanks aside, is [y] or [Y]; otherwise it ends there. With a
    backup in place the backup step removes it exactly when the line,
    blanks aside, is [n] or [N]. *)
Theorem answer_normal_form status ext plists dirs rt base_public_config install_apps
    (app : entry) (local_app : InstalledApp) (others : list InstalledApp)
    (raw : string) (rest : list string) (fs : gmap string string)
    (dest backup content : string) :
  let h := world_handler status ext plists dirs in
  let w := {| files := fs; typed := raw :: rest |} in
  let w' := {| files := fs; typed := rest |} in
  let app_base_locate :=
    if is_none (get app "appBaseLocate") then VStr (appBaseLocate local_app)
    else get app "appBaseLocate" in
  let bridge_file :=
    if is_none (get app "bridgeFile") then get base_public_config "bridgeFile"
    else get app "bridgeFile" in
  let question :=
    "[🤔] [" +:+ CFBundleName local_app +:+ "] - ["
      +:+ CFBundleShortVersionString local_app
      +:+ "] 是受支持的版本，是否需要注入？y/n(默认n)" in
  let run_s :=
    interp h (sequencer rt app local_app app_base_locate bridge_file
                (get app "injectFile")) w' in
  is_ascii raw = true →
  (∀ prompt, interp h (read_input prompt) w =
             ([log_of (Input prompt)], w', Done (PyStr.lower (PyStr.strip raw)))) ∧
  PyStr.lower (PyStr.strip (PyStr.lower (PyStr.strip raw))) =
    PyStr.lower (PyStr.strip raw) ∧
  (List.filter (λ la, id_eq (CFBundleIdentifier la) (get app "packageName"))
     install_apps = local_app :: others →
   is_none (get app "autoHandleSetapp") = true →
   check_compatible (get app "supportVersion") (get app "supportSubVersion")
     (CFBundleShortVersionString local_app) (CFBundleVersion local_app) = Some true →
   interp h (process_app rt base_public_config install_apps app) w =
     if decide (PyStr.strip raw = "y" ∨ PyStr.strip raw = "Y")
     then (log_of (Print question) :: log_of (Input EmptyString) :: run_s.1.1,
           run_s.1.2, run_s.2)
     else ([log_of (Print question); log_of (Input EmptyString)], w', Done tt)) ∧
  (fs !! backup = Some content →
   List.filter is_remove (interp h (backup_phase dest backup) w).1.1 =
     if decide (PyStr.strip raw = "n" ∨ PyStr.strip raw = "N")
     then [log_of (Remove backup)] else []).
Proof.
  intros h w w' app_base_locate bridge_file question run_s _.
  split; [done|]. split; [apply answer_of_eq|]. split.
  - intros Hfound Hset Hcomp. unfold process_app. cbv zeta. rewrite Hfound.
    unfold mbind, prog_bind, mret, prog_ret. cbn [bind]. rewrite Hset. cbn [negb bind].
    rewrite Hcomp. cbn [raise_if_none bind negb].
    unfold print, read_input, input, mbind, prog_bind, mret, prog_ret.
    cbn [bind interp]. unfold h at 1 2. cbn [world_handler typed files w raise_if_none bind].
    fold (answer_of raw). fold w'.
    destruct (decide (PyStr.strip raw = "y" ∨ PyStr.strip raw = "Y")) as [Hy|Hy].
    + destruct (decide (answer_of raw = "y")) as [_|Hc];
        [|by destruct Hc; apply answer_of_yes].
      fold app_base_locate bridge_file. fold h. fold run_s.
      by destruct run_s as [[tr ws] r].
    + destruct (decide (answer_of raw = "y")) as [Hc|_];
        [by apply answer_of_yes in Hc|]. done.
  - intros Hb. unfold backup_phase, path_exists, print, read_input, input, sh, run,
      mbind, prog_bind, mret, prog_ret.
    cbn [bind interp]. unfold h, w. cbn [world_handler typed files raise_if_none bind].
    rewrite Hb. rewrite bool_decide_true by eauto. cbn [bind interp world_handler typed
      files raise_if_none]. fold (answer_of raw).
    destruct (decide (PyStr.strip raw = "n" ∨ PyStr.strip raw = "N")) as [Hn|Hn].
    + destruct (decide (answer_of raw = "n")) as [_|Hc];
        [|by destruct Hc; apply answer_of_no].
      cbn [bind interp world_handler typed files]. rewrite Hb.
      cbn [bind interp world_handler typed files]. reflexivity.
    + destruct (decide (answer_of raw = "n")) as [Hc|_];
        [by apply answer_of_no in Hc|]. reflexivity.
Qed.

Lemma answer_normal_form_witness :
  List.filter is_remove
    (interp (example_handler 0)
       (backup_phase example_dest (example_dest +:+ "_backup"))
       {| files := {[ example_dest +:+ "_backup" := "old" ]}; typed := [" N "] |}).1.1 =
  [log_of (Remove (example_dest +:+ "_backup"))].
Proof.
  destruct (answer_normal_form (λ _, 0) example_ext example_plists (λ _, false)
              example_rt ∅ [example_installed] example_catalog_entry example_installed []
              " N " [] {[ example_dest +:+ "_backup" := "old" ]}
              example_dest (example_dest +:+ "_backup") "old") as (_ & _ & _ & H).
  - reflexivity.
  - etrans; [apply H; vm_compute; reflexivity|]. vm_compute. reflexivity.
Defined.

(** ** [handle_helper] *)









(** ** Browse-all mode and a missing [packageName] *)

Lemma expand_none (app : entry) : expand app = None ↔ app !! "packageName" = None.
Proof.
  unfold expand. destruct (app !! "packageName") as [v|]; [|done].
  by destruct v.
Qed.

Lemma browse_mode_raises_world status ext plists dirs app_list acc w :
  (∃ app, app ∈ app_list ∧ app !! "packageName" = None) →
  ∃ tr, interp (world_handler status ext plists dirs) (browse_mode app_list acc) w
          = (tr, w, Raised) ∧ commands_of tr = [].
Proof.
  revert acc. induction app_list as [|app rest IH]; intros acc (a & Hin & Ha).
  - by apply elem_of_nil in Hin.
  - cbn [browse_mode]. unfold mbind, prog_bind, mret, prog_ret.
    destruct (expand app) as [items|] eqn:Eapp.
    + assert (∃ a', a' ∈ rest ∧ a' !! "packageName" = None) as Hrest.
      { apply elem_of_cons in Hin as [->|Hin]; [|eauto].
        apply expand_none in Ha. congruence. }
      cbn [raise_if_none bind].
      destruct (truthy (get app "forQiuChenly")).
      * unfold path_exists. cbn [bind interp world_handler].
        destruct (negb _).
        -- destruct (IH acc Hrest) as (tr & -> & Htr). by eexists.
        -- destruct (IH (acc ++ items) Hrest) as (tr & -> & Htr). by eexists.
      * cbn [bind]. destruct (IH (acc ++ items) Hrest) as (tr & -> & Htr).
        by eexists.
    + cbn. by eexists.
Qed.

(** X13. Browse-all mode reads [app["packageName"]] of every catalog entry
    before any app is processed: when the keyword line is empty and one
    entry of the catalog has no [packageName] key, [main] raises without
    having run a command or changed a file, whatever the other entries
    are. *)
Theorem browse_all_needs_package_names status ext plists dirs rt base_public_config
    app_list install_apps (w : world) raw rest :
  typed w = raw :: rest →
  PyStr.strip raw = EmptyString →
  (∃ app, app ∈ app_list ∧ app !! "packageName" = None) →
  ∃ tr, interp (world_handler status ext plists dirs)
          (main rt base_public_config app_list install_apps) w =
        (tr, {| files := files w; typed := rest |}, Raised) ∧
        commands_of tr = [].
Proof.
  intros Ht Hk Hmiss.
  unfold main, mbind, prog_bind, mret, prog_ret, print, input.
  cbn [bind interp world_handler raise_if_none]. rewrite Ht.
  cbn [bind raise_if_none]. rewrite Hk. rewrite decide_True by done.
  rewrite !interp_bind.
  destruct (browse_mode_raises_world status ext plists dirs app_list []
              {| files := files w; typed := rest |} Hmiss) as (tr & -> & Htr).
  eexists. split; [done|].
  match goal with
  | |- commands_of (?a :: ?b :: tr) = _ => change (commands_of ([a; b] ++ tr) = [])
  end.
  by rewrite commands_of_app, Htr.
Qed.

Lemma browse_all_needs_package_names_witness :
  ∃ tr, interp (example_handler 0)
          (main example_rt ∅ [example_catalog_entry; ∅] [example_installed])
          {| files := ∅; typed := ["  "; "y"] |} =
        (tr, {| files := ∅; typed := ["y"] |}, Raised) ∧ commands_of tr = [].
Proof.
  apply (browse_all_needs_package_names (λ _, 0) example_ext example_plists
           (λ _, false) example_rt ∅ [example_catalog_entry; ∅] [example_installed]
           {| files := ∅; typed := ["  "; "y"] |} "  " ["y"]).
  - reflexivity.
  - vm_compute. reflexivity.
  - exists ∅. split; [by right; left | done].
Defined.

(** X14. Expansion is done once and for all: every work item [expand]
    yields has a [packageName] that is not a list, and expanding it again
    gives that item alone. *)
Theorem expand_idempotent (app : entry) (items : list entry) (item : entry) :
  expand app = Some items → item ∈ items →
  (∀ names, item !! "packageName" ≠ Some (VList names)) ∧
  expand item = Some [item].
Proof.
  unfold expand at 1. destruct (app !! "packageName") as [v|] eqn:E; [|done].
  assert (∀ s, expand (<["packageName" := VStr s]> app) =
               Some [<["packageName" := VStr s]> app]) as Hins.
  { intros s. unfold expand. by rewrite lookup_insert_eq. }
  assert ((∀ names, v ≠ VList names) → expand app = Some [app]) as Hself.
  { intros Hv. unfold expand. rewrite E. destruct v; try done. by destruct (Hv l). }
  destruct v as [| | | |names]; intros [= <-] Hin;
    try (apply list_elem_of_singleton in Hin as ->;
         split; [intros names; rewrite E; congruence | by apply Hself]).
  apply list_elem_of_fmap in Hin as (name & -> & _).
  split; [|apply Hins]. intros names'. by rewrite lookup_insert_eq.
Qed.

Lemma expand_idempotent_witness :
  expand (<["packageName" := VStr "com.b"]> example_list_entry) =
  Some [<["packageName" := VStr "com.b"]> example_list_entry].
Proof.
  apply (expand_idempotent example_list_entry
           ((λ name, <["packageName" := VStr name]> example_list_entry)
              <$> ["com.a"; "com.b"])).
  - vm_compute. reflexivity.
  - by right; left.
Defined.

(** ** Apps that are not compatible *)

Lemma ae_bind {A B : Type} (P : logged → Prop) (p : prog A) (f : A → prog B) :
  all_events P p → (∀ a, all_events P (f a)) → all_events P (bind p f).
Proof.
  intros Hp Hf. induction Hp as [a| |X e k He Hk IH]; simpl.
  - apply Hf.
  - constructor.
  - constructor; [done|]. intros x. apply IH.
Qed.

Lemma ae_trace {S A : Type} (P : logged → Prop) (h : handler S) (p : prog A) s :
  all_events P p → Forall P (interp h p s).1.1.
Proof.
  intros Hp. revert s. induction Hp as [a| |X e k He Hk IH]; intros s; simpl;
    try by constructor.
  destruct (h X e s) as [s' x]. specialize (IH x s').
  destruct (interp h (k x) s') as [[tr s''] r]. simpl in *. by constructor.
Qed.

Lemma ae_print s : all_events silent (print s).
Proof. constructor; [done|]. intros x. constructor. Qed.

(** X15. An installed app whose version the catalog entry does not accept
    is never offered for injection: when [check_compatible] does not answer
    [True] for the first installed app with the entry's package name, the
    turn of the loop for that entry asks nothing, runs nothing and changes
    nothing; it only prints. *)
Theorem incompatible_app_never_offered {S : Type} (h : handler S) rt base_public_config
    install_apps app local_app others (s : S) :
  List.filter (λ la, id_eq (CFBundleIdentifier la) (get app "packageName")) install_apps
    = local_app :: others →
  check_compatible (get app "supportVersion") (get app "supportSubVersion")
    (CFBundleShortVersionString local_app) (CFBundleVersion local_app) ≠ Some true →
  Forall silent (interp h (process_app rt base_public_config install_apps app) s).1.1.
Proof.
  intros Hfound Hc. apply ae_trace.
  unfold process_app. rewrite Hfound.
  unfold mbind, prog_bind, mret, prog_ret. cbn [bind]. cbv zeta.
  apply ae_bind.
  - destruct (negb (is_none (get app "autoHandleSetapp"))); [|constructor].
    apply ae_bind.
    + destruct (if is_none (get app "appBaseLocate") then _ else _); constructor.
    + intros abl. apply ae_bind; [apply ae_print | intros; constructor].
  - intros [bridge_file inject_file].
    destruct (check_compatible _ _ _ _) as [[|]|]; [done | | constructor].
    cbn [raise_if_none bind negb]. apply ae_print.
Qed.

Lemma incompatible_app_never_offered_witness :
  Forall silent
    (interp (example_handler 0)
       (process_app example_rt ∅ [example_installed]
          (<["supportVersion" := VList ["2.0"]]> example_catalog_entry))
       example_world).1.1.
Proof.
  apply (incompatible_app_never_offered (example_handler 0) example_rt ∅
           [example_installed]
           (<["supportVersion" := VList ["2.0"]]> example_catalog_entry)
           example_installed []).
  - vm_compute. reflexivity.
  - vm_compute. discriminate.
Defined.

(** ** Short cuts of the sequencer *)






(* ===================================================================== *)
(** * The backup step within the sequencer *)
(* ===================================================================== *)







